(** * Rhythm Guessing: the rhythm generator and the option builder of script.js

    A shallow embedding of the generation engine of [script.js]:
    the duration catalog ([TYPES], [dottedOf], [tripletGroup]), the level
    table ([LEVELS]), the two-bar generator ([generateForLevel] with its inner
    [fillBar]), the canonical key ([barsKey], [cloneBars]) and the option
    builder ([generateOptions]).

    Numbers that the engine manipulates are small integers (units, dots,
    indices); they are modelled in [Z].  Token objects are records whose
    optional properties are [option] fields.  The code draws from
    [Math.random] and shuffles with [Array.prototype.sort] under a comparator
    that ignores its arguments; both belong to the JavaScript runtime and are
    modelled by an interface ([JSRuntime]) that threads the state of the
    random source through every call.  A [TypeError] (property access on
    [undefined]) is modelled by [None].  The times of the playback are
    doubles; the playback is modelled over an interface of their operations
    ([JSNumber]), of which binary64 is an instance. *)

From Stdlib Require Import ZArith NArith List String Ascii Bool Lia.
From Stdlib Require Import Permutation DecimalString.
From Stdlib Require PrimFloat Uint63 QArith.
Import ListNotations.

Local Open Scope string_scope.
Local Open Scope list_scope.
Local Open Scope Z_scope.

(* ================================================================== *)
(** ** The JavaScript runtime *)
(* ================================================================== *)

(** A value returned by [Math.random()]: a double in [[0,1)].  It is
    represented by its numerator over [2^53]: the value is
    [ticks / 2^53].  The source uses a draw in three ways: it compares it
    with [0.5], it takes the sign of [Math.random() - .5], and it takes
    [Math.floor(Math.random() * n)] for the length [n] of an array.  The
    comparison and the sign are exact in doubles; the product is rounded to
    a double before [Math.floor] is applied. *)
Definition RESOLUTION : N := 2 ^ 53.
Definition HALF : N := 2 ^ 52.

Record Draw : Type := mkDraw {
  ticks : N;
  ticks_lt : (ticks <? RESOLUTION)%N = true
}.

(** [d < 0.5] *)
Definition lt_half (d : Draw) : bool := (ticks d <? HALF)%N.

(** The double nearest to the exact value [p / 2^53], again as a numerator
    over [2^53]: a double holds 53 significant bits, so a numerator of more
    bits is rounded to a multiple of [2^s], where [s] is the number of bits
    in excess, to the nearest one and to the even one on a tie.  The values
    met here are far from the ends of the exponent range. *)
Definition double_of_exact (p : N) : N :=
  if (p <? RESOLUTION)%N then p
  else
    let s := (N.log2 p - 52)%N in
    let q := (p / 2 ^ s)%N in
    let r := (p mod 2 ^ s)%N in
    let half := (2 ^ (s - 1))%N in
    if (half <? r)%N || ((r =? half)%N && N.odd q) then ((q + 1) * 2 ^ s)%N
    else (q * 2 ^ s)%N.

(** [Math.floor(d * n)] for the length [n] of an array (an integer below
    [2^32], which a double holds exactly): the product [d * n] is the double
    nearest to the exact product, and [Math.floor] of a double is exact. *)
Definition floor_scale (d : Draw) (n : nat) : nat :=
  N.to_nat (double_of_exact (ticks d * N.of_nat n) / RESOLUTION).

(** The runtime: a random source with its state, and the sort of an array
    under the comparator [()=>Math.random()-.5].  How many draws the sort
    takes and which order it leaves depend on the engine; what is assumed is
    that it rearranges the array it is given. *)
Class JSRuntime : Type := {
  RNG : Type;
  Math_random : RNG -> Draw * RNG;
  sort_random : forall A : Type, list A -> RNG -> list A * RNG;
  sort_random_perm :
    forall (A : Type) (l : list A) (g : RNG),
      Permutation (fst (sort_random A l g)) l
}.

Arguments sort_random {_} {A} _ _.

(** [arr.join(sep)] on an array of strings. *)
Fixpoint Array_join (sep : string) (arr : list string) : string :=
  match arr with
  | [] => ""
  | [x] => x
  | x :: rest => (x ++ sep ++ Array_join sep rest)%string
  end.

(** [arr.pop()]: the last element and the array without it. *)
Fixpoint Array_pop {A : Type} (arr : list A) : option (A * list A) :=
  match arr with
  | [] => None
  | [x] => Some (x, [])
  | x :: rest =>
      match Array_pop rest with
      | Some (y, rest') => Some (y, x :: rest')
      | None => None
      end
  end.

(** [arr.findIndex(p)], [-1] when no element satisfies [p]. *)
Fixpoint Array_findIndex_from {A : Type} (p : A -> bool) (i : Z) (arr : list A) : Z :=
  match arr with
  | [] => -1
  | x :: rest => if p x then i else Array_findIndex_from p (i + 1) rest
  end.

Definition Array_findIndex {A : Type} (p : A -> bool) (arr : list A) : Z :=
  Array_findIndex_from p 0 arr.

(** [arr.map((o,i)=>f(o,i))] *)
Fixpoint Array_mapi_from {A B : Type} (f : A -> Z -> B) (i : Z) (arr : list A) : list B :=
  match arr with
  | [] => []
  | x :: rest => f x i :: Array_mapi_from f (i + 1) rest
  end.

(** The decimal text of an integer, as a template literal prints it. *)
Definition Number_toString (z : Z) : string :=
  NilZero.string_of_int (Z.to_int z).

(* ================================================================== *)
(** ** Tokens and the duration catalog *)
(* ================================================================== *)

Definition UNIT : Z := 1.
Definition UNITS_PER_QUARTER : Z := 8.
Definition UNITS_PER_BAR : Z := UNITS_PER_QUARTER * 4.

(** A token object.  [vfDur], [dots] and [base] are absent on some tokens;
    [isTriplet] is either absent (falsy) or [true]. *)
#[warnings="-register-all"]
Inductive Token : Type := mkToken {
  name : string;
  units : Z;
  vfDur : option string;
  dots : option Z;
  isTriplet : bool;
  base : option Token
}.

Definition Bar : Type := list Token.
Definition Bars : Type := list Bar.

(** An entry of [TYPES]: [{name, units, vfDur}]. *)
Definition noteType (n : string) (u : Z) (d : string) : Token :=
  mkToken n u (Some d) None false None.

Definition TYPES_semibreve : Token := noteType "semibreve" 32 "w".
Definition TYPES_minim : Token := noteType "minim" 16 "h".
Definition TYPES_crotchet : Token := noteType "crotchet" 8 "q".
Definition TYPES_quaver : Token := noteType "quaver" 4 "8".
Definition TYPES_semiquaver : Token := noteType "semiquaver" 2 "16".
Definition TYPES_demisemiquaver : Token := noteType "demisemiquaver" 1 "32".

Definition TYPES_table : list (string * Token) :=
  [ ("semibreve", TYPES_semibreve);
    ("minim", TYPES_minim);
    ("crotchet", TYPES_crotchet);
    ("quaver", TYPES_quaver);
    ("semiquaver", TYPES_semiquaver);
    ("demisemiquaver", TYPES_demisemiquaver) ].

Fixpoint lookup_key (k : string) (table : list (string * Token)) : option Token :=
  match table with
  | [] => None
  | (k', v) :: rest => if String.eqb k k' then Some v else lookup_key k rest
  end.

(** [TYPES[k]]; [None] stands for [undefined]. *)
Definition TYPES (k : string) : option Token := lookup_key k TYPES_table.

(** [Math.floor(u * 1.5)] on an integer [u]. *)
Definition floor_times_1_5 (u : Z) : Z := (u * 3) / 2.

Definition dottedOf (type : Token) : Token :=
  mkToken ("dotted-" ++ name type)%string (floor_times_1_5 (units type))
          (vfDur type) (Some 1) false None.

Definition tripletGroup (baseType : Token) : Token :=
  mkToken ("triplet-" ++ name baseType)%string UNITS_PER_QUARTER
          None None true (Some baseType).

(** [Object.assign({}, t)]: a fresh object with the own properties of [t];
    the [base] object is shared, not copied. *)
Definition Object_assign (t : Token) : Token :=
  mkToken (name t) (units t) (vfDur t) (dots t) (isTriplet t) (base t).

(* ================================================================== *)
(** ** Level configuration *)
(* ================================================================== *)

Inductive LevelKey : Type := easy | medium | difficult.

Record LevelCfg : Type := mkLevel {
  allowed : list string;
  required : list string;
  allowDotted : bool;
  allowTriplets : bool;
  halfOfTypes : bool
}.

Definition LEVELS (k : LevelKey) : LevelCfg :=
  match k with
  | easy =>
      mkLevel ["semibreve"; "minim"; "crotchet"; "quaver"]
              ["semibreve"; "minim"; "crotchet"; "quaver"]
              false false false
  | medium =>
      mkLevel ["semibreve"; "minim"; "crotchet"; "quaver"; "semiquaver"]
              ["semibreve"; "minim"; "crotchet"; "quaver"; "semiquaver";
               "dotted"; "triplet"]
              true true false
  | difficult =>
      mkLevel ["semibreve"; "minim"; "crotchet"; "quaver"; "semiquaver";
               "demisemiquaver"]
              []
              false false true
  end.

(* ================================================================== *)
(** ** Canonical key and cloning *)
(* ================================================================== *)

Definition cloneBars (bars : Bars) : Bars :=
  map (fun bar => map (fun token => Object_assign token) bar) bars.

(** [token.vfDur || ''] *)
Definition vfDur_or_empty (t : Token) : string :=
  match vfDur t with
  | Some s => s
  | None => ""
  end.

(** [token.dots || 0] *)
Definition dots_or_zero (t : Token) : Z :=
  match dots t with
  | Some d => d
  | None => 0
  end.

Definition tokenKey (token : Token) : string :=
  if isTriplet token then
    ("triplet:" ++ match base token with
                   | Some b => name b
                   | None => ""
                   end)%string
  else
    (name token ++ ":" ++ Number_toString (units token) ++ ":"
       ++ vfDur_or_empty token ++ ":"
       ++ Number_toString (dots_or_zero token))%string.

Definition barKey (bar : Bar) : string :=
  Array_join "-" (map tokenKey bar).

Definition barsKey (bars : Bars) : string :=
  Array_join "|" (map barKey bars).

(* ================================================================== *)
(** ** Computations that draw from the random source and may throw *)
(* ================================================================== *)

Definition M {rt : JSRuntime} (A : Type) : Type := RNG -> option (A * RNG).

Definition ret {rt : JSRuntime} {A : Type} (a : A) : M A :=
  fun g => Some (a, g).

Definition bind {rt : JSRuntime} {A B : Type} (m : M A) (f : A -> M B) : M B :=
  fun g =>
    match m g with
    | Some (a, g') => f a g'
    | None => None
    end.

(** A value that may be [undefined] is used: [None] throws. *)
Definition defined {rt : JSRuntime} {A : Type} (o : option A) : M A :=
  fun g =>
    match o with
    | Some a => Some (a, g)
    | None => None
    end.

Notation "x <- m ;; k" := (bind m (fun x => k))
  (at level 61, m at next level, right associativity).
Notation "' pat <- m ;; k" := (bind m (fun x => match x with pat => k end))
  (at level 61, pat pattern, m at next level, right associativity).

(** [Math.random()] *)
Definition random {rt : JSRuntime} : M Draw :=
  fun g => Some (Math_random g).

(** [arr.sort(()=>Math.random()-.5)] *)
Definition shuffle {rt : JSRuntime} {A : Type} (arr : list A) : M (list A) :=
  fun g => Some (sort_random arr g).

(** [arr.map(k=>TYPES[k])] where every element is then used as an object. *)
Fixpoint lookupAll (keys : list string) : option (list Token) :=
  match keys with
  | [] => Some []
  | k :: rest =>
      match TYPES k, lookupAll rest with
      | Some t, Some ts => Some (t :: ts)
      | _, _ => None
      end
  end.

Section Generation.
Context {rt : JSRuntime}.

Definition pickRandom {A : Type} (arr : list A) : M A :=
  d <- random ;;
  defined (nth_error arr (floor_scale d (List.length arr))).

(** The [allowed] array of [generateForLevel], base types then their dotted
    variants when the level allows them. *)
Definition allowedOf (cfg : LevelCfg) : option (list Token) :=
  match lookupAll (allowed cfg) with
  | Some types =>
      if allowDotted cfg then
        Some (types ++ map (fun t =>
                mkToken ("dotted-" ++ name t)%string (floor_times_1_5 (units t))
                        (vfDur t) (Some 1) false None) types)
      else Some types
  | None => None
  end.

Definition chooseCount (baseTypes : list string) : nat :=
  Nat.max 1 (List.length baseTypes / 2).

(** The base of the required dotted token:
    [LEVELS.medium.allowed.map(k=>TYPES[k]).find(t=>t.units<=16) || TYPES.crotchet] *)
Definition dottedBase : option Token :=
  match lookupAll (allowed (LEVELS medium)) with
  | Some types =>
      match find (fun t => units t <=? 16) types with
      | Some t => Some t
      | None => Some TYPES_crotchet
      end
  | None => None
  end.

(** One turn of the loop over [cfg.required]. *)
Definition requiredOne (tripletTemplate : Token) (r : string) : option Token :=
  if String.eqb r "dotted" then
    match dottedBase with
    | Some b => Some (dottedOf b)
    | None => None
    end
  else if String.eqb r "triplet" then Some tripletTemplate
  else TYPES r.

Fixpoint requiredAll (tripletTemplate : Token) (rs : list string) : option (list Token) :=
  match rs with
  | [] => Some []
  | r :: rest =>
      match requiredOne tripletTemplate r, requiredAll tripletTemplate rest with
      | Some t, Some ts => Some (t :: ts)
      | _, _ => None
      end
  end.

(** The [requiredTokens] of one call. *)
Definition resolveRequired (cfg : LevelCfg) (tripletTemplate : Token) : M (list Token) :=
  if halfOfTypes cfg then
    let baseTypes := allowed (LEVELS difficult) in
    shuffled <- shuffle baseTypes ;;
    let chosen := firstn (chooseCount baseTypes) shuffled in
    defined (lookupAll chosen)
  else if (0 <? List.length (required cfg))%nat then
    defined (requiredAll tripletTemplate (required cfg))
  else ret [].

(** *** fillBar *)

Definition maxTries : nat := 1000.

(** The required tokens are cloned into the bar. *)
Definition placeRequired (withRequiredTokens : list Token) : list Token * Z :=
  fold_left
    (fun (acc : list Token * Z) t =>
       (fst acc ++ [Object_assign t], snd acc + units t))
    withRequiredTokens ([], 0).

(** The greedy random fill; [left] is [maxTries - tries]. *)
Fixpoint greedyFill (allowedPool : list Token) (left : nat)
    (tokens : list Token) (usedUnits : Z) : M (list Token * Z) :=
  match left with
  | O => ret (tokens, usedUnits)
  | S left' =>
      if usedUnits <? UNITS_PER_BAR then
        cand <- pickRandom allowedPool ;;
        if usedUnits + units cand >? UNITS_PER_BAR then
          greedyFill allowedPool left' tokens usedUnits
        else
          greedyFill allowedPool left' (tokens ++ [Object_assign cand])
                     (usedUnits + units cand)
      else ret (tokens, usedUnits)
  end.

Definition smallest : Token :=
  mkToken "demisemiquaver" 1 (Some "32") None false None.

(** The padding loop [while(usedUnits < UNITS_PER_BAR)]; it is run with
    [UNITS_PER_BAR - usedUnits] turns available, which [padFill_full]
    shows to be enough. *)
Fixpoint padFill_loop (turns : nat) (tokens : list Token) (usedUnits : Z)
    : list Token * Z :=
  match turns with
  | O => (tokens, usedUnits)
  | S turns' =>
      if usedUnits <? UNITS_PER_BAR then
        padFill_loop turns' (tokens ++ [smallest]) (usedUnits + 1)
      else (tokens, usedUnits)
  end.

Definition padFill (tokens : list Token) (usedUnits : Z) : list Token * Z :=
  padFill_loop (Z.to_nat (UNITS_PER_BAR - usedUnits)) tokens usedUnits.

(** The trimming loop; [left] is [50 - i]. *)
Fixpoint trimOverfill (left : nat) (tokens : list Token) (usedUnits : Z)
    : list Token * Z :=
  match left with
  | O => (tokens, usedUnits)
  | S left' =>
      if usedUnits >? UNITS_PER_BAR then
        match Array_pop tokens with
        | Some (t, tokens') => trimOverfill left' tokens' (usedUnits - units t)
        | None => (tokens, usedUnits)
        end
      else (tokens, usedUnits)
  end.

Definition poolOf (cfg : LevelCfg) (allowedTokens : list Token)
    (tripletTemplate : Token) : list Token :=
  if allowTriplets cfg then allowedTokens ++ [tripletTemplate] else allowedTokens.

(** The bar and its unit count as they stand when the trimming loop is
    reached. *)
Definition fillBar_untrimmed (cfg : LevelCfg) (allowedTokens : list Token)
    (tripletTemplate : Token) (withRequiredTokens : list Token)
    : M (list Token * Z) :=
  let placed := placeRequired withRequiredTokens in
  let allowedPool := poolOf cfg allowedTokens tripletTemplate in
  filled <- greedyFill allowedPool maxTries (fst placed) (snd placed) ;;
  ret (padFill (fst filled) (snd filled)).

(** The bar and the [usedUnits] that the final validation compares with
    [UNITS_PER_BAR]. *)
Definition fillBar_validated (cfg : LevelCfg) (allowedTokens : list Token)
    (tripletTemplate : Token) (withRequiredTokens : list Token)
    : M (list Token * Z) :=
  padded <- fillBar_untrimmed cfg allowedTokens tripletTemplate withRequiredTokens ;;
  ret (trimOverfill 50 (fst padded) (snd padded)).

Definition fillBar (cfg : LevelCfg) (allowedTokens : list Token)
    (tripletTemplate : Token) (withRequiredTokens : list Token) : M Bar :=
  validated <- fillBar_validated cfg allowedTokens tripletTemplate withRequiredTokens ;;
  shuffle (fst validated).

(** *** generateForLevel *)

(** Each required token goes to bar 0 when the draw is below [0.5], to bar 1
    otherwise. *)
Fixpoint distribute (reqs : list Token) (bar0 bar1 : list Token)
    : M (list Token * list Token) :=
  match reqs with
  | [] => ret (bar0, bar1)
  | req :: rest =>
      d <- random ;;
      if lt_half d then distribute rest (bar0 ++ [req]) bar1
      else distribute rest bar0 (bar1 ++ [req])
  end.

Record Rhythm : Type := mkRhythm { bars : Bars }.

Definition generateForLevel (levelKey : LevelKey) : M Rhythm :=
  let cfg := LEVELS levelKey in
  allowedTokens <- defined (allowedOf cfg) ;;
  let tripletTemplate := tripletGroup TYPES_quaver in
  requiredTokens <- resolveRequired cfg tripletTemplate ;;
  barReqs <- distribute requiredTokens [] [] ;;
  bar0 <- fillBar cfg allowedTokens tripletTemplate (fst barReqs) ;;
  bar1 <- fillBar cfg allowedTokens tripletTemplate (snd barReqs) ;;
  ret (mkRhythm [bar0; bar1]).

(** *** generateOptions *)

(** [seen.has(key)] on the set of keys, kept as the list of its members. *)
Definition Set_has (seen : list string) (key : string) : bool :=
  existsb (String.eqb key) seen.

(** The collecting loop; [left] is [200 - attempts]. *)
Fixpoint collectOptions (levelKey : LevelKey) (left : nat)
    (options : list Bars) (seen : list string) : M (list Bars * list string) :=
  match left with
  | O => ret (options, seen)
  | S left' =>
      if (List.length options <? 4)%nat then
        rhythm <- generateForLevel levelKey ;;
        let candidate := bars rhythm in
        let key := barsKey candidate in
        if Set_has seen key then collectOptions levelKey left' options seen
        else collectOptions levelKey left' (options ++ [candidate]) (key :: seen)
      else ret (options, seen)
  end.

(** The loop [while(options.length < 4)], run with [4 - options.length]
    turns available. *)
Fixpoint padOptions_loop (turns : nat) (correctBars : Bars) (options : list Bars)
    : list Bars :=
  match turns with
  | O => options
  | S turns' =>
      if (List.length options <? 4)%nat then
        padOptions_loop turns' correctBars (options ++ [cloneBars correctBars])
      else options
  end.

Definition padOptions (correctBars : Bars) (options : list Bars) : list Bars :=
  padOptions_loop (4 - List.length options) correctBars options.

Record OptionSet : Type := mkOptionSet {
  options : list Bars;
  correctIndex : Z
}.

Definition generateOptions (correctBars : Bars) (levelKey : LevelKey) : M OptionSet :=
  collected <- collectOptions levelKey 200 [correctBars] [barsKey correctBars] ;;
  let padded := padOptions correctBars (fst collected) in
  order <- shuffle (Array_mapi_from (fun o i => (o, i)) 0 padded) ;;
  let shuffled := map fst order in
  ret (mkOptionSet shuffled (Array_findIndex (fun x => snd x =? 0) order)).

End Generation.

(* ================================================================== *)
(** ** Observations on tokens, bars and rhythms *)
(* ================================================================== *)

(** The sum of the units of the tokens of a bar. *)
Definition barUnits (bar : Bar) : Z :=
  fold_right (fun t acc => units t + acc) 0 bar.

(** A dotted-duration token carries a truthy [dots]. *)
Definition isDotted (t : Token) : bool :=
  match dots t with
  | Some d => negb (d =? 0)
  | None => false
  end.

Definition option_eqb {A : Type} (eqb : A -> A -> bool) (x y : option A) : bool :=
  match x, y with
  | Some a, Some b => eqb a b
  | None, None => true
  | _, _ => false
  end.

(** Structural identity of two token objects, property by property. *)
Fixpoint token_eqb (a b : Token) {struct a} : bool :=
  String.eqb (name a) (name b)
  && (units a =? units b)
  && option_eqb String.eqb (vfDur a) (vfDur b)
  && option_eqb Z.eqb (dots a) (dots b)
  && Bool.eqb (isTriplet a) (isTriplet b)
  && match base a, base b with
     | Some x, Some y => token_eqb x y
     | None, None => true
     | _, _ => false
     end.

(** The six base types in the order of [TYPES]. *)
Definition baseTokens : list Token := map snd TYPES_table.

(** Every token that the catalog's constructors build from a base type. *)
Definition catalog : list Token :=
  baseTokens ++ map dottedOf baseTokens ++ map tripletGroup baseTokens.

Definition in_catalog (t : Token) : bool := existsb (token_eqb t) catalog.

(** A rhythm: two bars of catalog tokens. *)
Definition is_rhythm (b : Bars) : bool :=
  (List.length b =? 2)%nat && forallb (forallb in_catalog) b.

(** The four types of the easy level. *)
Definition easyTokens : list Token :=
  [TYPES_semibreve; TYPES_minim; TYPES_crotchet; TYPES_quaver].

(** The pool a level samples from, as [fillBar] builds it. *)
Definition levelPool (levelKey : LevelKey) : list Token :=
  match allowedOf (LEVELS levelKey) with
  | Some allowedTokens =>
      poolOf (LEVELS levelKey) allowedTokens (tripletGroup TYPES_quaver)
  | None => []
  end.

(** No key of a catalog token starts the key of another one. *)
Definition keys_prefix_free : bool :=
  forallb (fun t1 =>
    forallb (fun t2 => token_eqb t1 t2 || negb (prefix (tokenKey t1) (tokenKey t2)))
            catalog) catalog.

(** A key starts with a character that is neither separator. *)
Definition key_starts_plainly (t : Token) : bool :=
  match tokenKey t with
  | String c _ => negb (Ascii.eqb c "|") && negb (Ascii.eqb c "-")
  | EmptyString => false
  end.

(** What may follow the text of a bar: nothing, or the separator of bars. *)
Definition bar_end (r : string) : Prop :=
  r = "" \/ exists r', r = String "|" r'.

(** What follows the first element in a joined array. *)
Definition join_rest (sep : string) (rest : list string) : string :=
  match rest with
  | [] => ""
  | _ :: _ => (sep ++ Array_join sep rest)%string
  end.

(* ================================================================== *)
(** ** A reference runtime *)
(* ================================================================== *)

(** A concrete runtime on which the generator can be run: the random source
    first replays a script of draws and then continues with a multiplicative
    congruential generator (which stays at [0] from the seed [0]); the sort is
    an insertion sort, which moves an element to the left while the
    comparator, called on it and on its left neighbour, returns a negative
    number, that is while [Math.random() - .5 < 0]. *)
Module Reference.

Record State : Type := mkState {
  script : list N;
  seed : N
}.

Definition MULTIPLIER : N := 1220703125.

Lemma mod_resolution_lt (n : N) : (n mod RESOLUTION <? RESOLUTION)%N = true.
Proof.
  apply N.ltb_lt. apply N.mod_lt. unfold RESOLUTION. discriminate.
Qed.

Definition draw_of (n : N) : Draw :=
  mkDraw (n mod RESOLUTION) (mod_resolution_lt n).

Definition next (s : State) : Draw * State :=
  match script s with
  | x :: rest => (draw_of x, mkState rest (seed s))
  | [] =>
      let seed' := (seed s * MULTIPLIER mod RESOLUTION)%N in
      (draw_of seed', mkState [] seed')
  end.

(** [sorted_rev] is the sorted prefix, last element first. *)
Fixpoint insert_left {A : Type} (element : A) (sorted_rev : list A) (s : State)
    : list A * State :=
  match sorted_rev with
  | [] => ([element], s)
  | tmp :: rest =>
      let (order, s') := next s in
      if lt_half order then
        let (placed, s'') := insert_left element rest s' in
        (tmp :: placed, s'')
      else (element :: tmp :: rest, s')
  end.

Fixpoint insertion_loop {A : Type} (todo : list A) (sorted_rev : list A) (s : State)
    : list A * State :=
  match todo with
  | [] => (rev sorted_rev, s)
  | element :: rest =>
      let (sorted_rev', s') := insert_left element sorted_rev s in
      insertion_loop rest sorted_rev' s'
  end.

Definition insertion_sort (A : Type) (arr : list A) (s : State) : list A * State :=
  insertion_loop arr [] s.

Lemma insert_left_perm {A : Type} (element : A) (sorted_rev : list A) (s : State) :
  Permutation (fst (insert_left element sorted_rev s)) (element :: sorted_rev).
Proof.
  revert s. induction sorted_rev as [|tmp rest IH]; intros s; simpl.
  - apply Permutation_refl.
  - destruct (next s) as [order s'].
    destruct (lt_half order).
    + specialize (IH s').
      destruct (insert_left element rest s') as [placed s'']. simpl in *.
      apply Permutation_trans with (tmp :: element :: rest).
      * apply perm_skip. exact IH.
      * apply perm_swap.
    + simpl. apply Permutation_refl.
Qed.

Lemma insertion_loop_perm {A : Type} (todo sorted_rev : list A) (s : State) :
  Permutation (fst (insertion_loop todo sorted_rev s)) (rev sorted_rev ++ todo).
Proof.
  revert sorted_rev s. induction todo as [|element rest IH]; intros sorted_rev s; simpl.
  - rewrite app_nil_r. apply Permutation_refl.
  - pose proof (insert_left_perm element sorted_rev s) as Hins.
    destruct (insert_left element sorted_rev s) as [sorted_rev' s']. simpl in Hins.
    eapply Permutation_trans; [apply IH|].
    apply Permutation_trans with (rev (element :: sorted_rev) ++ rest).
    + apply Permutation_app_tail.
      eapply Permutation_trans; [apply Permutation_sym, Permutation_rev|].
      eapply Permutation_trans; [exact Hins|]. apply Permutation_rev.
    + simpl. rewrite <- app_assoc. simpl. apply Permutation_refl.
Qed.

Lemma insertion_sort_perm (A : Type) (arr : list A) (s : State) :
  Permutation (fst (insertion_sort A arr s)) arr.
Proof.
  unfold insertion_sort.
  apply (insertion_loop_perm arr [] s).
Qed.

#[export] Instance runtime : JSRuntime := {|
  RNG := State;
  Math_random := next;
  sort_random := insertion_sort;
  sort_random_perm := insertion_sort_perm
|}.

(** The result of a computation run from a state, without the final state. *)
Definition run {A : Type} (m : M A) (s : State) : option A :=
  match m s with
  | Some (a, _) => Some a
  | None => None
  end.

End Reference.

Import Reference.

(* ================================================================== *)
(** ** Counting the runs of the choice of half of the types *)
(* ================================================================== *)

(** The reference sort of the six names takes at most 15 comparisons, and
    each comparison looks at one draw only to see whether it lies below
    [0.5], which [HALF] of the [2 * HALF] values of a draw do.  A run of the
    choice is therefore decided by the signs of the draws that it takes, and
    every vector of 15 signs stands for the same number of sequences of 15
    draws.  The runs are listed as paths: a path is the list of the signs
    that one run takes, neither more nor fewer. *)
Definition COMPARISONS : nat := 15.

Definition sign (t : N) : bool := lt_half (draw_of t).

Definition script_of (signs : list bool) : list N :=
  map (fun b : bool => if b then 0%N else HALF) signs.

(** The required tokens that the difficult level resolves from a state. *)
Definition choose (s : State) : option (list Token * State) :=
  resolveRequired (LEVELS difficult) (tripletGroup TYPES_quaver) s.

(** The paths that extend [signs], with the names chosen at their end.  The
    script is run from the seed 1: the seed has changed at the end exactly
    when the run asked for a draw beyond the script, and the script is then
    extended by one sign, either way. *)
Fixpoint complete_paths (depth : nat) (signs : list bool)
    : list (list bool * list string) :=
  match choose (mkState (script_of signs) 1) with
  | Some (req, s') =>
      if (seed s' =? 1)%N then [(signs, map name req)]
      else
        match depth with
        | O => []
        | S depth' =>
            complete_paths depth' (signs ++ [false])
            ++ complete_paths depth' (signs ++ [true])
        end
  | None => []
  end.

Definition choice_paths : list (list bool * list string) :=
  Eval vm_compute in complete_paths COMPARISONS [].

Fixpoint list_eqb {A : Type} (eqb : A -> A -> bool) (l1 l2 : list A) : bool :=
  match l1, l2 with
  | [], [] => true
  | a :: l1', b :: l2' => eqb a b && list_eqb eqb l1' l2'
  | _, _ => false
  end.

Definition path_eqb (p q : list bool * list string) : bool :=
  list_eqb Bool.eqb (fst p) (fst q) && list_eqb String.eqb (snd p) (snd q).

(** The number of vectors of 15 signs that start with the signs of a
    path. *)
Definition path_size (signs : list bool) : N :=
  (2 ^ N.of_nat (COMPARISONS - List.length signs))%N.

Definition same_set (a b : list string) : bool :=
  forallb (fun x => existsb (String.eqb x) b) a
  && forallb (fun x => existsb (String.eqb x) a) b.

(** The number of vectors of 15 signs after which the set of the chosen
    types is [types]. *)
Definition frequency (types : list string) : N :=
  fold_right
    (fun path acc =>
       if same_set (snd path) types then (path_size (fst path) + acc)%N else acc)
    0%N choice_paths.

(** Two states of the reference source whose scripts have the same signs. *)
Definition same_signs (s s' : State) : Prop :=
  seed s = seed s' /\ map sign (script s) = map sign (script s').

(** The sets of [k] elements of a list, each in the order of the list. *)
Fixpoint subsets_of_size {A : Type} (k : nat) (l : list A) : list (list A) :=
  match l with
  | [] => match k with O => [[]] | S _ => [] end
  | x :: rest =>
      match k with
      | O => [[]]
      | S k' => map (cons x) (subsets_of_size k' rest) ++ subsets_of_size k rest
      end
  end.

(** The sets of types that the difficult level can choose. *)
Definition type_choices : list (list string) :=
  subsets_of_size (chooseCount (allowed (LEVELS difficult)))
                  (allowed (LEVELS difficult)).

(* ================================================================== *)
(** ** The quiz: newQuestion and the click on an option card *)
(* ================================================================== *)

(** [arr[i]] for a number [i]; [None] stands for [undefined]. *)
Definition Array_get {A : Type} (arr : list A) (i : Z) : option A :=
  if i <? 0 then None else nth_error arr (Z.to_nat i).

(** The globals of the quiz once a question has been set.  [currentRhythm]
    is [options[correctIndex]], which may be [undefined]. *)
Record Quiz : Type := mkQuiz {
  currentCorrectIndex : Z;
  attemptsRemaining : Z;
  currentRhythm : option Bars
}.

(** What a handler asks of the page: a toast ([showToast(text, ok)]) or a new
    question after a delay ([setTimeout(()=>newQuestion(), delay)]). *)
Inductive Effect : Type :=
| Toast (text : string) (ok : bool)
| ScheduleNewQuestion (delay : Z).

(** The statements of [newQuestion] that set the globals of the quiz, with
    the options that it hands to the cards.  The level read from the selector
    is taken as a level key. *)
Definition newQuestion {rt : JSRuntime} (level : LevelKey) : M (Quiz * list Bars) :=
  gen <- generateForLevel level ;;
  generated <- generateOptions (bars gen) level ;;
  ret (mkQuiz (correctIndex generated) 3
              (Array_get (options generated) (correctIndex generated)),
       options generated).

(** The click listener of the card of index [idx]. *)
Definition optionCardClick (idx : Z) (q : Quiz) : Quiz * list Effect :=
  if attemptsRemaining q <=? 0 then (q, [])
  else if currentCorrectIndex q =? idx then
    (mkQuiz (currentCorrectIndex q) 0 (currentRhythm q),
     [Toast "Correct!" true; ScheduleNewQuestion 600])
  else
    let remaining := attemptsRemaining q - 1 in
    let q' := mkQuiz (currentCorrectIndex q) remaining (currentRhythm q) in
    if remaining >? 0 then
      let triesWord := if remaining =? 1 then "try" else "tries" in
      (q', [Toast ("Not quite. " ++ Number_toString remaining ++ " "
                     ++ triesWord ++ " left.")%string false])
    else
      (q', [Toast ("Out of tries! The correct option was option "
                     ++ Number_toString (currentCorrectIndex q + 1) ++ ".")%string
                  false;
            ScheduleNewQuestion 900]).

(** A sequence of clicks, on the cards of the given indices. *)
Fixpoint clicks (idxs : list Z) (q : Quiz) : Quiz * list Effect :=
  match idxs with
  | [] => (q, [])
  | idx :: rest =>
      let (q1, effects1) := optionCardClick idx q in
      let (q2, effects2) := clicks rest q1 in
      (q2, effects1 ++ effects2)
  end.

Definition isSchedule (e : Effect) : bool :=
  match e with
  | ScheduleNewQuestion _ => true
  | Toast _ _ => false
  end.

(* ================================================================== *)
(** ** Labels and the fallback rendering *)
(* ================================================================== *)

(** [s.replace(/-/g, ' ')] *)
Fixpoint replace_hyphens (s : string) : string :=
  match s with
  | EmptyString => EmptyString
  | String c rest =>
      String (if Ascii.eqb c "-" then " "%char else c) (replace_hyphens rest)
  end.

Definition tokenLabel (token : Token) : string :=
  if isTriplet token then
    ("Triplet (" ++ match base token with
                    | Some b => name b
                    | None => "quaver"
                    end ++ ")")%string
  else
    replace_hyphens (if String.eqb (name token) "" then "note" else name token).

(** The rows that [renderRhythmFallback] appends: the text of the label and
    the text of the notes of each bar. *)
Definition renderRhythmFallback (bars : Bars) : list (string * string) :=
  Array_mapi_from
    (fun bar idx =>
       (("Bar " ++ Number_toString (idx + 1))%string,
        Array_join "   " (map tokenLabel bar)))
    0 bars.

(* ================================================================== *)
(** ** The notes handed to the notation renderer *)
(* ================================================================== *)

(** A [StaveNote] as [renderRhythmInto] builds it: always on the key [b/4],
    with a duration (which is [undefined] only if a [TYPES] entry had none)
    and the number of calls of [addDotToAll]. *)
Record StaveNote : Type := mkStaveNote {
  duration : option string;
  addedDots : nat
}.

(** The fallback of the duration: the [vfDur] of the first entry of [TYPES]
    with the units of the token, or ['q']. *)
Fixpoint durationOfUnits (u : Z) (table : list (string * Token)) : option string :=
  match table with
  | [] => Some "q"
  | (_, type) :: rest =>
      if units type =? u then vfDur type else durationOfUnits u rest
  end.

(** [token.vfDur || (fallback)()] *)
Definition noteDuration (token : Token) : option string :=
  match vfDur token with
  | Some d => if String.eqb d "" then durationOfUnits (units token) TYPES_table
              else Some d
  | None => durationOfUnits (units token) TYPES_table
  end.

(** The notes of one token: three quavers for a triplet group, one note
    otherwise, dotted [token.dots] times. *)
Definition notesOfToken (token : Token) : list StaveNote :=
  if isTriplet token then
    [mkStaveNote (Some "8") 0; mkStaveNote (Some "8") 0; mkStaveNote (Some "8") 0]
  else
    [mkStaveNote (noteDuration token)
                 (match dots token with
                  | Some d => Z.to_nat d
                  | None => 0%nat
                  end)].

(** [barNotes], one array of notes for each bar. *)
Definition barNotes (bars : Bars) : list (list StaveNote) :=
  map (fun bar => List.concat (map notesOfToken bar)) bars.

(** [allNotes], the tickables of the voice. *)
Definition allNotes (bars : Bars) : list StaveNote :=
  List.concat (barNotes bars).

(** [allTuplets], one group of three notes for each triplet token. *)
Definition allTuplets (bars : Bars) : list (list StaveNote) :=
  map notesOfToken (filter isTriplet (List.concat bars)).

(** The indices of the bars in front of which a barline is drawn: every bar
    after the first that has a note. *)
Definition barlineIndices (bars : Bars) : list Z :=
  if (1 <? List.length bars)%nat then
    map snd
        (filter (fun x : list StaveNote * Z =>
                   negb (Nat.eqb (List.length (fst x)) 0))
                (tl (Array_mapi_from (fun notes i => (notes, i)) 0 (barNotes bars))))
  else [].

(* ================================================================== *)
(** ** Playback *)
(* ================================================================== *)

(** The arithmetic of JavaScript numbers on times.  The properties proved
    of the playback hold whatever these operations are. *)
Class JSNumber : Type := {
  num : Type;
  num_of_Z : Z -> num;
  num_tenth : num;
  num_add : num -> num -> num;
  num_sub : num -> num -> num;
  num_mul : num -> num -> num;
  num_div : num -> num -> num;
  num_max : num -> num -> num
}.

Section Playback.
Context {number : JSNumber}.

Definition TEMPO_BPM : num := num_of_Z 96.

Definition secondsPerUnit : num :=
  num_div (num_div (num_of_Z 60) TEMPO_BPM) (num_of_Z UNITS_PER_QUARTER).

(** An oscillator scheduled by [scheduleClick(time, accent)]. *)
Definition Click : Type := (num * bool)%type.

(** The play button: whether it is disabled, and its text. *)
Record Button : Type := mkButton {
  disabled : bool;
  textContent : string
}.

(** The globals of the playback; [playBtn] is [None] when the page has no
    such element. *)
Record Player : Type := mkPlayer {
  isPlaying : bool;
  scheduledOscillators : list Click;
  playbackTimeout : option num;
  playBtn : option Button
}.

Definition finalizePlaybackState (p : Player) : Player :=
  mkPlayer false [] None
           (match playBtn p with
            | Some _ => Some (mkButton false "Play (metronome)")
            | None => None
            end).

(** [stopPlayback]: the oscillators on which [stop] is called, and the
    state left. *)
Definition stopPlayback (p : Player) : list Click * Player :=
  (scheduledOscillators p, finalizePlaybackState p).

(** The clicks of one token from [cursor], and the cursor after it. *)
Definition playToken (token : Token) (isFirstNoteInBar : bool) (cursor : num)
    : list Click * num :=
  if isTriplet token then
    let subDur := num_mul (num_div (num_of_Z (units token)) (num_of_Z 3))
                          secondsPerUnit in
    let c1 := num_add cursor subDur in
    let c2 := num_add c1 subDur in
    ([(cursor, isFirstNoteInBar); (c1, false); (c2, false)], num_add c2 subDur)
  else
    ([(cursor, isFirstNoteInBar)],
     num_add cursor (num_mul (num_of_Z (units token)) secondsPerUnit)).

Fixpoint playTokens (bar : Bar) (isFirstNoteInBar : bool) (cursor : num)
    : list Click * num :=
  match bar with
  | [] => ([], cursor)
  | token :: rest =>
      let (scheduled, cursor') := playToken token isFirstNoteInBar cursor in
      let (scheduled', cursor'') := playTokens rest false cursor' in
      (scheduled ++ scheduled', cursor'')
  end.

(** The clicks of each bar, in order, and the cursor at the end. *)
Fixpoint playBars (bars : Bars) (cursor : num) : list (list Click) * num :=
  match bars with
  | [] => ([], cursor)
  | bar :: rest =>
      let (scheduled, cursor') := playTokens bar true cursor in
      let (scheduled', cursor'') := playBars rest cursor' in
      (scheduled :: scheduled', cursor'')
  end.

(** [playRhythm(bars)] when the audio clock reads [currentTime]: the
    oscillators stopped, and the state left. *)
Definition playRhythm (bars : Bars) (currentTime : num) (p : Player)
    : list Click * Player :=
  match bars with
  | [] => ([], p)
  | _ :: _ =>
      let (stopped, p1) := stopPlayback p in
      let startTime := num_add currentTime num_tenth in
      let (scheduled, cursor) := playBars bars startTime in
      (stopped,
       mkPlayer true (scheduledOscillators p1 ++ List.concat scheduled)
                (Some (num_max (num_of_Z 0)
                               (num_add (num_mul (num_sub cursor startTime)
                                                 (num_of_Z 1000))
                                        (num_of_Z 150))))
                (match playBtn p1 with
                 | Some _ => Some (mkButton true "Playing...")
                 | None => None
                 end))
  end.

(** The click listener of the play button, with the rhythm of the
    question. *)
Definition playButtonClick (rhythm : Bars) (currentTime : num) (p : Player)
    : list Click * Player :=
  if isPlaying p then stopPlayback p else playRhythm rhythm currentTime p.

End Playback.

(** *** The two arithmetics of the playback *)

(** The numbers of the code are IEEE-754 doubles; the operations of
    [PrimFloat] are those of binary64, rounding to nearest, ties to even. *)
Module Doubles.

Definition of_Z (z : Z) : PrimFloat.float :=
  if z <? 0 then PrimFloat.opp (PrimFloat.of_uint63 (Uint63.of_Z (- z)))
  else PrimFloat.of_uint63 (Uint63.of_Z z).

(** The literal [0.1]: the double nearest to one tenth, which is what the
    correctly rounded division of 1 by 10 returns. *)
Definition tenth : PrimFloat.float := PrimFloat.div (of_Z 1) (of_Z 10).

(** [Math.max(a, b)] *)
Definition Math_max (a b : PrimFloat.float) : PrimFloat.float :=
  if PrimFloat.is_nan a || PrimFloat.is_nan b then PrimFloat.nan
  else if PrimFloat.ltb a b then b
  else if PrimFloat.ltb b a then a
  else if PrimFloat.is_zero a then PrimFloat.add a b
  else a.

Definition Binary64 : JSNumber := {|
  num := PrimFloat.float;
  num_of_Z := of_Z;
  num_tenth := tenth;
  num_add := PrimFloat.add;
  num_sub := PrimFloat.sub;
  num_mul := PrimFloat.mul;
  num_div := PrimFloat.div;
  num_max := Math_max
|}.

End Doubles.

(** The arithmetic in which the specification reads the playback: exact
    rational numbers. *)
Module Exact.

Definition Rationals : JSNumber := {|
  num := QArith_base.Q;
  num_of_Z := QArith_base.inject_Z;
  num_tenth := QArith_base.Qmake 1 10;
  num_add := QArith_base.Qplus;
  num_sub := QArith_base.Qminus;
  num_mul := QArith_base.Qmult;
  num_div := QArith_base.Qdiv;
  num_max := fun a b => if QArith_base.Qle_bool a b then b else a
|}.

End Exact.

(** The number of clicks, and of notes, that a token stands for. *)
Definition eventsOfToken (token : Token) : nat :=
  if isTriplet token then 3%nat else 1%nat.

(** The number of clicks, and of notes, of a bar. *)
Definition barEvents (bar : Bar) : nat := list_sum (map eventsOfToken bar).

(** The accents of a bar that is heard with its first click accented and no
    other. *)
Definition firstAccented (bar : Bar) : list bool :=
  match bar with
  | [] => []
  | _ :: _ => true :: repeat false (barEvents bar - 1)
  end.

(** No label of a catalog token starts the label of another one. *)
Definition labels_prefix_free : bool :=
  forallb (fun t1 =>
    forallb (fun t2 => token_eqb t1 t2
                       || negb (prefix (tokenLabel t1) (tokenLabel t2)))
            catalog) catalog.

(** A label starts with a character that is not the space of the
    separator. *)
Definition label_starts_plainly (t : Token) : bool :=
  match tokenLabel t with
  | String c _ => negb (Ascii.eqb c " ")
  | EmptyString => false
  end.

(** The sampling loop of [fillBar] once more, as [greedyFill], returning
    also the counter [tries] with which the loop ends. *)
Fixpoint greedyFill_tries {rt : JSRuntime} (allowedPool : list Token) (left : nat)
    (tries : nat) (tokens : list Token) (usedUnits : Z) : M (list Token * Z * nat) :=
  match left with
  | O => ret (tokens, usedUnits, tries)
  | S left' =>
      if usedUnits <? UNITS_PER_BAR then
        cand <- pickRandom allowedPool ;;
        if usedUnits + units cand >? UNITS_PER_BAR then
          greedyFill_tries allowedPool left' (S tries) tokens usedUnits
        else
          greedyFill_tries allowedPool left' (S tries)
                           (tokens ++ [Object_assign cand])
                           (usedUnits + units cand)
      else ret (tokens, usedUnits, tries)
  end.

(** The sampling loop of [fillBar], run on the required tokens
    [withRequiredTokens] with the random source in state [g], has used up
    its budget: it ends with [tries] at 1000 and the bar still short of
    [UNITS_PER_BAR], which is when the padding loop has something to
    append. *)
Definition samplingExhausted {rt : JSRuntime} (allowedPool : list Token)
    (withRequiredTokens : list Token) (g : RNG) : Prop :=
  exists (sampled : list Token) (usedUnits : Z) (g' : RNG),
    greedyFill_tries allowedPool maxTries 0
                     (fst (placeRequired withRequiredTokens))
                     (snd (placeRequired withRequiredTokens)) g
      = Some ((sampled, usedUnits, 1000%nat), g')
    /\ usedUnits < UNITS_PER_BAR.

(** [n] consecutive calls of [generateForLevel]. *)
Fixpoint generateMany {rt : JSRuntime} (levelKey : LevelKey) (n : nat) : M (list Bars) :=
  match n with
  | O => ret []
  | S n' =>
      rhythm <- generateForLevel levelKey ;;
      more <- generateMany levelKey n' ;;
      ret (bars rhythm :: more)
  end.

(** The lists that keep some of the elements of a list, in its order. *)
Fixpoint sublists {A : Type} (l : list A) : list (list A) :=
  match l with
  | [] => [[]]
  | x :: rest => map (cons x) (sublists rest) ++ sublists rest
  end.

(* ================================================================== *)
(** * Properties *)
(* ================================================================== *)

(** ** Cloning *)

Lemma Object_assign_same (t : Token) : Object_assign t = t.
Proof. destruct t; reflexivity. Qed.

Lemma map_Object_assign (bar : Bar) : map (fun token => Object_assign token) bar = bar.
Proof.
  induction bar as [|t bar IH]; simpl.
  - reflexivity.
  - rewrite Object_assign_same, IH. reflexivity.
Qed.

Lemma cloneBars_same (b : Bars) : cloneBars b = b.
Proof.
  unfold cloneBars. induction b as [|bar b IH]; simpl.
  - reflexivity.
  - rewrite map_Object_assign, IH. reflexivity.
Qed.

(** ** Strings *)

Lemma append_assoc (a b c : string) : ((a ++ b) ++ c = a ++ (b ++ c))%string.
Proof.
  induction a as [|ch a IH]; simpl.
  - reflexivity.
  - rewrite IH. reflexivity.
Qed.

Lemma append_nil_r (a : string) : (a ++ "" = a)%string.
Proof.
  induction a as [|ch a IH]; simpl.
  - reflexivity.
  - rewrite IH. reflexivity.
Qed.

Lemma append_inv_head (a b c : string) : (a ++ b = a ++ c)%string -> b = c.
Proof.
  induction a as [|ch a IH]; simpl; intros H.
  - exact H.
  - injection H as H. apply IH. exact H.
Qed.

(** When two strings followed by something spell the same text, one of them
    starts the other. *)
Lemma append_eq_prefix (a b r1 r2 : string) :
  (a ++ r1 = b ++ r2)%string -> prefix a b = true \/ prefix b a = true.
Proof.
  revert b. induction a as [|ch a IH]; intros b H.
  - left. destruct b; reflexivity.
  - destruct b as [|ch' b].
    + right. reflexivity.
    + simpl in H. injection H as Hc Hr. subst ch'.
      destruct (IH b Hr) as [Hp|Hp]; [left|right]; simpl;
        destruct (ascii_dec ch ch); try contradiction; exact Hp.
Qed.

(** ** Structural identity is decided by [token_eqb] *)

Lemma option_eqb_eq {A : Type} (eqb : A -> A -> bool) (x y : option A) :
  (forall a b, eqb a b = true -> a = b) -> option_eqb eqb x y = true -> x = y.
Proof.
  intros Heq. destruct x, y; simpl; intros H; try discriminate.
  - f_equal. apply Heq. exact H.
  - reflexivity.
Qed.

Fixpoint token_eqb_eq (a b : Token) {struct a} : token_eqb a b = true -> a = b.
Proof.
  destruct a as [n u v d i ba], b as [n' u' v' d' i' bb]. simpl.
  intros H.
  repeat (apply andb_prop in H; destruct H as [H ?]).
  apply String.eqb_eq in H. subst n'.
  assert (u = u') by (apply Z.eqb_eq; assumption). subst u'.
  assert (v = v').
  { eapply option_eqb_eq; [|eassumption]. intros ? ? E. apply String.eqb_eq. exact E. }
  subst v'.
  assert (d = d').
  { eapply option_eqb_eq; [|eassumption]. intros ? ? E. apply Z.eqb_eq. exact E. }
  subst d'.
  assert (i = i') by (apply Bool.eqb_prop; assumption). subst i'.
  destruct ba as [x|], bb as [y|]; try discriminate.
  - rewrite (token_eqb_eq x y); [reflexivity | assumption].
  - reflexivity.
Qed.

Lemma in_catalog_In (t : Token) : in_catalog t = true -> In t catalog.
Proof.
  unfold in_catalog. intros H. apply existsb_exists in H.
  destruct H as [c [Hin Heq]]. apply token_eqb_eq in Heq. subst c. exact Hin.
Qed.

(** ** The canonical key on catalog tokens *)

Lemma keys_prefix_free_true : keys_prefix_free = true.
Proof. vm_compute. reflexivity. Qed.

Lemma catalog_keys_start_plainly : forallb key_starts_plainly catalog = true.
Proof. vm_compute. reflexivity. Qed.

Lemma tokenKey_prefix_inj (t1 t2 : Token) :
  In t1 catalog -> In t2 catalog ->
  prefix (tokenKey t1) (tokenKey t2) = true -> t1 = t2.
Proof.
  intros H1 H2 Hp.
  pose proof keys_prefix_free_true as Hfree. unfold keys_prefix_free in Hfree.
  rewrite forallb_forall in Hfree. specialize (Hfree t1 H1).
  rewrite forallb_forall in Hfree. specialize (Hfree t2 H2).
  rewrite Hp in Hfree. simpl in Hfree. rewrite orb_false_r in Hfree.
  apply token_eqb_eq. exact Hfree.
Qed.

Lemma tokenKey_split (t1 t2 : Token) (r1 r2 : string) :
  In t1 catalog -> In t2 catalog ->
  (tokenKey t1 ++ r1 = tokenKey t2 ++ r2)%string -> t1 = t2 /\ r1 = r2.
Proof.
  intros H1 H2 H.
  assert (t1 = t2) as ->.
  { destruct (append_eq_prefix _ _ _ _ H) as [Hp|Hp].
    - apply tokenKey_prefix_inj; assumption.
    - symmetry. apply tokenKey_prefix_inj; assumption. }
  split; [reflexivity|]. eapply append_inv_head. exact H.
Qed.

Lemma Array_join_cons (sep x : string) (rest : list string) :
  Array_join sep (x :: rest) = (x ++ join_rest sep rest)%string.
Proof.
  destruct rest as [|y rest]; simpl.
  - rewrite append_nil_r. reflexivity.
  - reflexivity.
Qed.

Lemma tokenKey_not_bar_end (t : Token) (r r' : string) :
  In t catalog -> bar_end r' -> (tokenKey t ++ r)%string <> r'.
Proof.
  intros Hin Hend Heq.
  pose proof catalog_keys_start_plainly as Hs.
  rewrite forallb_forall in Hs. specialize (Hs t Hin).
  unfold key_starts_plainly in Hs.
  destruct (tokenKey t) as [|c k]; [discriminate|].
  destruct Hend as [->|[r'' ->]]; simpl in Heq; [discriminate|].
  injection Heq as Hc _. subst c. simpl in Hs. discriminate.
Qed.

Lemma barKey_split (b1 : Bar) :
  forall (b2 : Bar) (r1 r2 : string),
    Forall (fun t => In t catalog) b1 -> Forall (fun t => In t catalog) b2 ->
    bar_end r1 -> bar_end r2 ->
    (barKey b1 ++ r1 = barKey b2 ++ r2)%string -> b1 = b2 /\ r1 = r2.
Proof.
  unfold barKey.
  induction b1 as [|t1 b1 IH]; intros b2 r1 r2 Hc1 Hc2 He1 He2 H.
  - destruct b2 as [|t2 b2].
    + split; [reflexivity | exact H].
    + exfalso. simpl map in H. rewrite Array_join_cons, append_assoc in H.
      inversion Hc2; subst.
      eapply tokenKey_not_bar_end; [eassumption | exact He1 | symmetry; exact H].
  - destruct b2 as [|t2 b2].
    + exfalso. simpl map in H. rewrite Array_join_cons, append_assoc in H.
      inversion Hc1; subst.
      eapply tokenKey_not_bar_end; [eassumption | exact He2 | exact H].
    + simpl map in H. rewrite !Array_join_cons, !append_assoc in H.
      inversion Hc1 as [|? ? Ht1 Hb1]; subst.
      inversion Hc2 as [|? ? Ht2 Hb2]; subst.
      apply tokenKey_split in H; [|assumption|assumption].
      destruct H as [-> H].
      destruct b1 as [|u1 b1], b2 as [|u2 b2]; simpl join_rest in H.
      * split; [reflexivity | exact H].
      * exfalso. simpl in H. destruct He1 as [->|[r' ->]]; discriminate.
      * exfalso. simpl in H. destruct He2 as [->|[r' ->]]; discriminate.
      * change (("-" ++ Array_join "-" (map tokenKey (u1 :: b1))) ++ r1)%string
          with (String "-" (Array_join "-" (map tokenKey (u1 :: b1)) ++ r1)%string) in H.
        change (("-" ++ Array_join "-" (map tokenKey (u2 :: b2))) ++ r2)%string
          with (String "-" (Array_join "-" (map tokenKey (u2 :: b2)) ++ r2)%string) in H.
        injection H as H.
        destruct (IH (u2 :: b2) r1 r2 Hb1 Hb2 He1 He2 H) as [Hb Hr].
        rewrite Hb. split; [reflexivity | exact Hr].
Qed.

Lemma join_rest_bar_end (rest : list string) : bar_end (join_rest "|" rest).
Proof.
  destruct rest as [|x rest]; [left; reflexivity|].
  right. eexists. reflexivity.
Qed.

Lemma barsKey_inj_same_length (b1 : Bars) :
  forall b2 : Bars,
    List.length b1 = List.length b2 ->
    Forall (Forall (fun t => In t catalog)) b1 ->
    Forall (Forall (fun t => In t catalog)) b2 ->
    barsKey b1 = barsKey b2 -> b1 = b2.
Proof.
  unfold barsKey.
  induction b1 as [|x1 b1 IH]; intros b2 Hlen Hc1 Hc2 H.
  - destruct b2; [reflexivity | discriminate].
  - destruct b2 as [|x2 b2]; [discriminate|].
    simpl map in H. rewrite !Array_join_cons in H.
    inversion Hc1 as [|? ? Hx1 Hb1]; subst.
    inversion Hc2 as [|? ? Hx2 Hb2]; subst.
    apply barKey_split in H; try assumption; try apply join_rest_bar_end.
    destruct H as [-> H]. f_equal.
    simpl in Hlen. injection Hlen as Hlen.
    destruct b1 as [|y1 b1], b2 as [|y2 b2]; try discriminate.
    + reflexivity.
    + apply IH.
      * exact Hlen.
      * exact Hb1.
      * exact Hb2.
      * simpl join_rest in H.
        change ("|" ++ Array_join "|" (map barKey (y1 :: b1)))%string
          with (String "|" (Array_join "|" (map barKey (y1 :: b1)))) in H.
        change ("|" ++ Array_join "|" (map barKey (y2 :: b2)))%string
          with (String "|" (Array_join "|" (map barKey (y2 :: b2)))) in H.
        injection H as H. exact H.
Qed.

Lemma is_rhythm_catalog (b : Bars) :
  is_rhythm b = true ->
  List.length b = 2%nat /\ Forall (Forall (fun t => In t catalog)) b.
Proof.
  unfold is_rhythm. intros H. apply andb_prop in H. destruct H as [Hl Hf].
  split; [apply Nat.eqb_eq; exact Hl|].
  rewrite forallb_forall in Hf. apply Forall_forall. intros bar Hbar.
  specialize (Hf bar Hbar). rewrite forallb_forall in Hf.
  apply Forall_forall. intros t Ht. apply in_catalog_In. apply Hf. exact Ht.
Qed.

(* ================================================================== *)
(** ** The generator *)
(* ================================================================== *)

Section GenerationFacts.
Context {rt : JSRuntime}.

Lemma bind_Some {A B : Type} (m : M A) (f : A -> M B) (g g' : RNG) (a : A) :
  m g = Some (a, g') -> bind m f g = f a g'.
Proof. unfold bind. intros ->. reflexivity. Qed.

Lemma bind_inv {A B : Type} (m : M A) (f : A -> M B) (g : RNG) (r : B * RNG) :
  bind m f g = Some r ->
  exists a g', m g = Some (a, g') /\ f a g' = Some r.
Proof.
  unfold bind. destruct (m g) as [[a g']|]; [|discriminate].
  intros H. exists a, g'. split; [reflexivity | exact H].
Qed.

Lemma barUnits_app (a b : Bar) : barUnits (a ++ b) = barUnits a + barUnits b.
Proof.
  induction a as [|t a IH]; simpl.
  - reflexivity.
  - rewrite IH. lia.
Qed.

Lemma barUnits_perm (a b : Bar) : Permutation a b -> barUnits a = barUnits b.
Proof.
  induction 1; simpl; lia.
Qed.

(** *** pickRandom *)

(** Rounding the product of a draw and a length to a double never reaches
    the length: the exact product stays [n / 2^53] below [n], and the
    rounding moves it by half a unit in the last place at most, which is
    less than that. *)
Lemma double_of_exact_lt (t n : N) :
  (t < RESOLUTION)%N -> (0 < n)%N ->
  (double_of_exact (t * n) < RESOLUTION * n)%N.
Proof.
  intros Ht Hn.
  assert (t * n + n <= RESOLUTION * n)%N as Hexact by nia.
  unfold double_of_exact.
  destruct (t * n <? RESOLUTION)%N eqn:Hsmall; [lia|].
  apply N.ltb_ge in Hsmall.
  set (p := (t * n)%N) in *.
  assert (0 < p)%N as Hp by (unfold RESOLUTION in Hsmall; simpl in Hsmall; lia).
  destruct (N.log2_spec p Hp) as [Hlow Hhigh].
  assert (53 <= N.log2 p)%N as Hbits.
  { apply N.log2_le_pow2; [exact Hp | exact Hsmall]. }
  set (s := (N.log2 p - 52)%N).
  assert (2 ^ s = 2 * 2 ^ (s - 1))%N as Hs.
  { replace s with (N.succ (s - 1)) at 1 by (unfold s; lia).
    apply N.pow_succ_r'. }
  assert (2 ^ N.log2 p = 2 ^ (s - 1) * RESOLUTION)%N as Hlog.
  { unfold RESOLUTION. rewrite <- N.pow_add_r. f_equal. unfold s. lia. }
  assert (0 < 2 ^ (s - 1))%N as Hhalf by (apply N.neq_0_lt_0, N.pow_nonzero; lia).
  set (half := (2 ^ (s - 1))%N) in *.
  pose proof (N.Div0.div_mod p (2 ^ s)) as Hdiv.
  assert (p mod 2 ^ s < 2 ^ s)%N as Hrem by (apply N.mod_lt; lia).
  rewrite Hs in *.
  set (q := (p / (2 * half))%N) in *.
  set (r := (p mod (2 * half))%N) in *.
  assert (0 < RESOLUTION)%N as Hres by (unfold RESOLUTION; simpl; lia).
  assert (half < n)%N as Hgap by nia.
  destruct ((half <? r)%N || ((r =? half)%N && N.odd q)) eqn:Hup.
  - assert (half <= r)%N as Hr.
    { apply orb_prop in Hup. destruct Hup as [Hup|Hup].
      - apply N.ltb_lt in Hup. lia.
      - apply andb_prop in Hup. destruct Hup as [Hup _].
        apply N.eqb_eq in Hup. lia. }
    nia.
  - nia.
Qed.

(** A draw at which the rounding matters: the exact product with 6 is
    [5 - 4 / 2^53], half way between two doubles, and rounds to 5. *)
Lemma floor_scale_rounds_up :
  floor_scale (mkDraw 7505999378950826 eq_refl) 6 = 5%nat
  /\ (7505999378950826 * 6 / RESOLUTION = 4)%N.
Proof. split; vm_compute; reflexivity. Qed.

Lemma floor_scale_lt (d : Draw) (n : nat) : (0 < n)%nat -> (floor_scale d n < n)%nat.
Proof.
  intros Hn. unfold floor_scale.
  pose proof (ticks_lt d) as Hd. apply N.ltb_lt in Hd.
  assert (double_of_exact (ticks d * N.of_nat n) / RESOLUTION < N.of_nat n)%N as Hlt.
  { apply N.Div0.div_lt_upper_bound.
    apply double_of_exact_lt; [exact Hd | lia]. }
  lia.
Qed.

Lemma pickRandom_In {A : Type} (arr : list A) (g : RNG) :
  arr <> [] ->
  exists x g', pickRandom arr g = Some (x, g') /\ In x arr.
Proof.
  intros Hne. unfold pickRandom, bind, random, defined.
  destruct (Math_random g) as [d g'].
  assert (0 < List.length arr)%nat as Hlen.
  { destruct arr; [contradiction | simpl; lia]. }
  pose proof (floor_scale_lt d _ Hlen) as Hi.
  apply nth_error_Some in Hi.
  destruct (nth_error arr (floor_scale d (List.length arr))) as [x|] eqn:Hx;
    [|contradiction].
  exists x, g'. split; [reflexivity|].
  eapply nth_error_In. exact Hx.
Qed.

(** *** The three loops of fillBar *)

Lemma greedyFill_spec (allowedPool : list Token) (left : nat) :
  allowedPool <> [] ->
  forall (tokens : list Token) (usedUnits : Z) (g : RNG),
  exists added g',
    greedyFill allowedPool left tokens usedUnits g
      = Some ((tokens ++ added, usedUnits + barUnits added), g')
    /\ Forall (fun t => In t allowedPool) added
    /\ (usedUnits <= UNITS_PER_BAR -> usedUnits + barUnits added <= UNITS_PER_BAR)
    /\ (UNITS_PER_BAR <= usedUnits -> added = []).
Proof.
  intros Hne. induction left as [|left IH]; intros tokens usedUnits g.
  - exists [], g. simpl. rewrite app_nil_r, Z.add_0_r.
    repeat split; auto.
  - simpl. destruct (usedUnits <? UNITS_PER_BAR) eqn:Hlt.
    + apply Z.ltb_lt in Hlt.
      destruct (pickRandom_In allowedPool g Hne) as [cand [g1 [Hpick Hin]]].
      rewrite (bind_Some _ _ _ _ _ Hpick).
      destruct (usedUnits + units cand >? UNITS_PER_BAR) eqn:Hfit.
      * destruct (IH tokens usedUnits g1) as [added [g' [Hrun [Hall [Hle Hfull]]]]].
        exists added, g'. repeat split; auto.
      * rewrite Object_assign_same.
        destruct (IH (tokens ++ [cand]) (usedUnits + units cand) g1)
          as [added [g' [Hrun [Hall [Hle Hfull]]]]].
        exists (cand :: added), g'.
        rewrite <- app_assoc in Hrun. simpl in Hrun.
        simpl barUnits. rewrite Z.add_assoc.
        repeat split.
        -- exact Hrun.
        -- constructor; assumption.
        -- intros _. rewrite <- Z.add_assoc. rewrite <- Z.add_assoc in Hle.
           apply Hle. rewrite Z.gtb_ltb in Hfit. apply Z.ltb_ge in Hfit. lia.
        -- intros Hfull'. lia.
    + exists [], g. unfold ret. rewrite app_nil_r. simpl. rewrite Z.add_0_r.
      repeat split; auto.
Qed.

Lemma padFill_loop_spec (turns : nat) :
  forall (tokens : list Token) (usedUnits : Z),
    padFill_loop turns tokens usedUnits
    = (tokens ++ repeat smallest (Nat.min turns (Z.to_nat (UNITS_PER_BAR - usedUnits))),
       usedUnits
       + Z.of_nat (Nat.min turns (Z.to_nat (UNITS_PER_BAR - usedUnits)))).
Proof.
  induction turns as [|turns IH]; intros tokens usedUnits; simpl padFill_loop.
  - simpl. rewrite app_nil_r, Z.add_0_r. reflexivity.
  - destruct (usedUnits <? UNITS_PER_BAR) eqn:Hlt.
    + apply Z.ltb_lt in Hlt. rewrite IH.
      replace (Z.to_nat (UNITS_PER_BAR - usedUnits))
        with (S (Z.to_nat (UNITS_PER_BAR - (usedUnits + 1)))) by lia.
      rewrite <- Nat.succ_min_distr. simpl repeat.
      rewrite <- app_assoc. simpl. f_equal. lia.
    + apply Z.ltb_ge in Hlt.
      replace (Z.to_nat (UNITS_PER_BAR - usedUnits)) with 0%nat by lia.
      rewrite Nat.min_0_r. simpl. rewrite app_nil_r, Z.add_0_r. reflexivity.
Qed.

(** The padding loop stops because its condition fails, never for want of
    turns: on return [usedUnits] is the larger of its entry value and
    [UNITS_PER_BAR]. *)
Lemma padFill_full (tokens : list Token) (usedUnits : Z) :
  padFill tokens usedUnits
  = (tokens ++ repeat smallest (Z.to_nat (UNITS_PER_BAR - usedUnits)),
     Z.max usedUnits UNITS_PER_BAR).
Proof.
  unfold padFill. rewrite padFill_loop_spec, Nat.min_id. f_equal. lia.
Qed.

Lemma Array_pop_spec {A : Type} (arr : list A) :
  match Array_pop arr with
  | Some (x, rest) => arr = rest ++ [x]
  | None => arr = []
  end.
Proof.
  induction arr as [|a arr IH]; simpl.
  - reflexivity.
  - destruct arr as [|b arr].
    + reflexivity.
    + destruct (Array_pop (b :: arr)) as [[y rest']|].
      * rewrite IH. reflexivity.
      * discriminate.
Qed.

Lemma trimOverfill_spec (left : nat) :
  forall (tokens : list Token) (usedUnits : Z),
  exists popped,
    tokens = fst (trimOverfill left tokens usedUnits) ++ popped
    /\ snd (trimOverfill left tokens usedUnits) = usedUnits - barUnits popped.
Proof.
  induction left as [|left IH]; intros tokens usedUnits; simpl.
  - exists []. rewrite app_nil_r. simpl. split; [reflexivity | lia].
  - destruct (usedUnits >? UNITS_PER_BAR).
    + pose proof (Array_pop_spec tokens) as Hpop.
      destruct (Array_pop tokens) as [[t tokens']|].
      * destruct (IH tokens' (usedUnits - units t)) as [popped [Hk Hu]].
        exists (popped ++ [t]). split.
        -- rewrite app_assoc, <- Hk. exact Hpop.
        -- rewrite Hu, barUnits_app. simpl. lia.
      * exists []. rewrite app_nil_r. simpl. split; [reflexivity | lia].
    + exists []. rewrite app_nil_r. simpl. split; [reflexivity | lia].
Qed.

Lemma placeRequired_spec (req : list Token) :
  placeRequired req = (req, barUnits req).
Proof.
  unfold placeRequired.
  assert (forall (acc : list Token * Z),
             fold_left (fun (acc : list Token * Z) t =>
                          (fst acc ++ [Object_assign t], snd acc + units t)) req acc
             = (fst acc ++ req, snd acc + barUnits req)) as Hgen.
  { induction req as [|t req IH]; intros acc; simpl.
    - rewrite app_nil_r, Z.add_0_r. destruct acc; reflexivity.
    - rewrite IH. simpl. rewrite Object_assign_same, <- app_assoc. simpl.
      f_equal. lia. }
  rewrite Hgen. reflexivity.
Qed.

(** *** fillBar *)

Lemma fillBar_validated_spec (cfg : LevelCfg) (allowedTokens : list Token)
    (tripletTemplate : Token) (req : list Token) (g : RNG) :
  poolOf cfg allowedTokens tripletTemplate <> [] ->
  exists kept used g',
    fillBar_validated cfg allowedTokens tripletTemplate req g = Some ((kept, used), g')
    /\ Forall (fun t => In t req
                        \/ In t (poolOf cfg allowedTokens tripletTemplate)
                        \/ t = smallest) kept.
Proof.
  intros Hne. unfold fillBar_validated, fillBar_untrimmed.
  rewrite placeRequired_spec. simpl fst. simpl snd.
  destruct (greedyFill_spec _ maxTries Hne req (barUnits req) g)
    as [added [g' [Hrun [Hall _]]]].
  unfold bind at 1. unfold bind at 1. rewrite Hrun. unfold ret. simpl fst. simpl snd.
  rewrite padFill_full. simpl fst. simpl snd.
  destruct (trimOverfill_spec 50
              ((req ++ added) ++ repeat smallest
                 (Z.to_nat (UNITS_PER_BAR - (barUnits req + barUnits added))))
              (Z.max (barUnits req + barUnits added) UNITS_PER_BAR))
    as [popped [Hkept _]].
  destruct (trimOverfill 50 _ _) as [kept used]. simpl in Hkept.
  exists kept, used, g'. split; [reflexivity|].
  assert (Forall (fun t => In t req
                        \/ In t (poolOf cfg allowedTokens tripletTemplate)
                        \/ t = smallest) (kept ++ popped)) as Hbig.
  { rewrite <- Hkept. apply Forall_app. split; [apply Forall_app; split|].
    - apply Forall_forall. intros t Ht. left. exact Ht.
    - eapply Forall_impl; [|exact Hall]. intros t Ht. right. left. exact Ht.
    - apply Forall_forall. intros t Ht. apply repeat_spec in Ht. right. right. exact Ht. }
  apply Forall_app in Hbig. apply Hbig.
Qed.

Lemma fillBar_perm (cfg : LevelCfg) (allowedTokens : list Token)
    (tripletTemplate : Token) (req : list Token) (g g1 : RNG)
    (kept : list Token) (used : Z) :
  fillBar_validated cfg allowedTokens tripletTemplate req g = Some ((kept, used), g1) ->
  exists bar g2,
    fillBar cfg allowedTokens tripletTemplate req g = Some (bar, g2)
    /\ Permutation bar kept.
Proof.
  intros H. unfold fillBar. rewrite (bind_Some _ _ _ _ _ H).
  unfold shuffle. simpl fst.
  pose proof (sort_random_perm _ kept g1) as Hperm.
  destruct (sort_random kept g1) as [bar g2]. simpl in Hperm.
  exists bar, g2. split; [reflexivity | exact Hperm].
Qed.

Lemma fillBar_spec (cfg : LevelCfg) (allowedTokens : list Token)
    (tripletTemplate : Token) (req : list Token) (g : RNG) :
  poolOf cfg allowedTokens tripletTemplate <> [] ->
  exists bar g',
    fillBar cfg allowedTokens tripletTemplate req g = Some (bar, g')
    /\ Forall (fun t => In t req
                        \/ In t (poolOf cfg allowedTokens tripletTemplate)
                        \/ t = smallest) bar.
Proof.
  intros Hne.
  destruct (fillBar_validated_spec cfg allowedTokens tripletTemplate req g Hne)
    as [kept [used [g1 [Hval Hall]]]].
  destruct (fillBar_perm _ _ _ _ _ _ _ _ Hval) as [bar [g2 [Hfill Hperm]]].
  exists bar, g2. split; [exact Hfill|].
  apply Forall_forall. intros t Ht.
  rewrite Forall_forall in Hall. apply Hall.
  eapply Permutation_in; [exact Hperm | exact Ht].
Qed.

(** *** The distribution of the required tokens *)

Lemma distribute_spec (reqs : list Token) :
  forall (bar0 bar1 : list Token) (g : RNG),
  exists r0 r1 g',
    distribute reqs bar0 bar1 g = Some ((r0, r1), g')
    /\ incl r0 (bar0 ++ reqs) /\ incl r1 (bar1 ++ reqs).
Proof.
  induction reqs as [|req rest IH]; intros bar0 bar1 g; simpl.
  - exists bar0, bar1, g. rewrite !app_nil_r.
    repeat split; apply incl_refl.
  - unfold bind, random. destruct (Math_random g) as [d g1].
    destruct (lt_half d).
    + destruct (IH (bar0 ++ [req]) bar1 g1) as [r0 [r1 [g' [Hrun [H0 H1]]]]].
      exists r0, r1, g'. rewrite <- app_assoc in H0. simpl in H0.
      repeat split; [exact Hrun | exact H0 |].
      intros t Ht. apply H1 in Ht. apply in_app_or in Ht.
      apply in_or_app. destruct Ht; [left | right; right]; assumption.
    + destruct (IH bar0 (bar1 ++ [req]) g1) as [r0 [r1 [g' [Hrun [H0 H1]]]]].
      exists r0, r1, g'. rewrite <- app_assoc in H1. simpl in H1.
      repeat split; [exact Hrun | | exact H1].
      intros t Ht. apply H0 in Ht. apply in_app_or in Ht.
      apply in_or_app. destruct Ht; [left | right; right]; assumption.
Qed.

(** *** The required tokens *)

Lemma TYPES_entry (k : string) (t : Token) :
  TYPES k = Some t -> name t = k /\ In t baseTokens.
Proof.
  unfold TYPES, TYPES_table, lookup_key.
  repeat match goal with
  | |- (if String.eqb k ?s then _ else _) = _ -> _ =>
      destruct (String.eqb_spec k s) as [->|_];
        [intros H; injection H as <-; split; [reflexivity | simpl; tauto]|]
  end.
  discriminate.
Qed.

Lemma lookupAll_spec (keys : list string) :
  incl keys (allowed (LEVELS difficult)) ->
  exists types,
    lookupAll keys = Some types
    /\ map name types = keys /\ incl types baseTokens.
Proof.
  induction keys as [|k keys IH]; intros Hincl.
  - exists []. split; [reflexivity|]. split; [reflexivity | apply incl_nil_l].
  - destruct IH as [types [Hall [Hnames Hin]]].
    { intros x Hx. apply Hincl. right. exact Hx. }
    assert (exists t, TYPES k = Some t) as [t Ht].
    { assert (In k (allowed (LEVELS difficult))) as Hk by (apply Hincl; left; reflexivity).
      simpl in Hk.
      repeat (destruct Hk as [<-|Hk]; [eexists; reflexivity|]). contradiction. }
    exists (t :: types). simpl. rewrite Ht, Hall.
    destruct (TYPES_entry k t Ht) as [Hn Hb].
    split; [reflexivity|]. split.
    + simpl. rewrite Hn, Hnames. reflexivity.
    + intros x [<-|Hx]; [exact Hb | apply Hin; exact Hx].
Qed.

Lemma firstn_incl {A : Type} (n : nat) (l : list A) : incl (firstn n l) l.
Proof.
  intros x Hx. rewrite <- (firstn_skipn n l). apply in_or_app. left. exact Hx.
Qed.

Lemma firstn_NoDup {A : Type} (n : nat) (l : list A) : NoDup l -> NoDup (firstn n l).
Proof.
  intros H. rewrite <- (firstn_skipn n l) in H.
  eapply NoDup_app_remove_r. exact H.
Qed.

(** For the difficult level the required tokens are three different base
    types, whatever the random source and the sort do. *)
Lemma resolveRequired_difficult (tripletTemplate : Token) (g : RNG) :
  exists req g',
    resolveRequired (LEVELS difficult) tripletTemplate g = Some (req, g')
    /\ List.length req = 3%nat /\ NoDup req /\ incl req baseTokens.
Proof.
  change (resolveRequired (LEVELS difficult) tripletTemplate g)
    with (bind (shuffle (allowed (LEVELS difficult)))
               (fun shuffled =>
                  defined (lookupAll
                    (firstn (chooseCount (allowed (LEVELS difficult))) shuffled))) g).
  unfold bind, shuffle.
  pose proof (sort_random_perm _ (allowed (LEVELS difficult)) g) as Hperm.
  destruct (sort_random (allowed (LEVELS difficult)) g) as [shuffled g1].
  simpl fst in Hperm.
  set (chosen := firstn (chooseCount (allowed (LEVELS difficult))) shuffled).
  assert (incl chosen (allowed (LEVELS difficult))) as Hincl.
  { intros x Hx. eapply Permutation_in; [exact Hperm|].
    eapply firstn_incl. exact Hx. }
  destruct (lookupAll_spec chosen Hincl) as [types [Hall [Hnames Hbase]]].
  exists types, g1. unfold defined. fold chosen. rewrite Hall.
  split; [reflexivity|]. split; [|split].
  - rewrite <- (length_map name), Hnames. unfold chosen.
    rewrite length_firstn.
    rewrite (Permutation_length Hperm). reflexivity.
  - apply (NoDup_map_inv name). rewrite Hnames. unfold chosen.
    apply firstn_NoDup.
    eapply Permutation_NoDup; [apply Permutation_sym; exact Hperm|].
    simpl. repeat constructor; simpl; intuition discriminate.
  - exact Hbase.
Qed.

Lemma resolveRequired_spec (levelKey : LevelKey) (g : RNG) :
  exists req g',
    resolveRequired (LEVELS levelKey) (tripletGroup TYPES_quaver) g = Some (req, g')
    /\ incl req (levelPool levelKey).
Proof.
  destruct levelKey.
  - exists easyTokens, g. split; [reflexivity|].
    intros t Ht. exact Ht.
  - eexists. exists g. split; [reflexivity|].
    intros t Ht. simpl in Ht. unfold levelPool. simpl.
    intuition (subst; auto 20).
  - destruct (resolveRequired_difficult (tripletGroup TYPES_quaver) g)
      as [req [g' [Hrun [_ [_ Hbase]]]]].
    exists req, g'. split; [exact Hrun|].
    intros t Ht. apply Hbase in Ht. exact Ht.
Qed.

(** *** generateForLevel *)

Lemma allowedOf_levelPool (levelKey : LevelKey) :
  exists allowedTokens,
    allowedOf (LEVELS levelKey) = Some allowedTokens
    /\ poolOf (LEVELS levelKey) allowedTokens (tripletGroup TYPES_quaver)
       = levelPool levelKey
    /\ levelPool levelKey <> [].
Proof.
  destruct levelKey; eexists;
    (split; [reflexivity | split; [reflexivity | discriminate]]).
Qed.

(** The five steps of [generateForLevel]. *)
Lemma generateForLevel_steps (levelKey : LevelKey) (allowedTokens req r0 r1 : list Token)
    (bar0 bar1 : Bar) (g g1 g2 g3 g4 : RNG) :
  allowedOf (LEVELS levelKey) = Some allowedTokens ->
  resolveRequired (LEVELS levelKey) (tripletGroup TYPES_quaver) g = Some (req, g1) ->
  distribute req [] [] g1 = Some ((r0, r1), g2) ->
  fillBar (LEVELS levelKey) allowedTokens (tripletGroup TYPES_quaver) r0 g2
    = Some (bar0, g3) ->
  fillBar (LEVELS levelKey) allowedTokens (tripletGroup TYPES_quaver) r1 g3
    = Some (bar1, g4) ->
  generateForLevel levelKey g = Some (mkRhythm [bar0; bar1], g4).
Proof.
  intros Hallowed Hreq Hdist Hbar0 Hbar1.
  unfold generateForLevel.
  rewrite Hallowed. unfold defined at 1. unfold bind at 1.
  rewrite (bind_Some _ _ _ _ _ Hreq).
  rewrite (bind_Some _ _ _ _ _ Hdist). cbn [fst snd].
  rewrite (bind_Some _ _ _ _ _ Hbar0).
  rewrite (bind_Some _ _ _ _ _ Hbar1).
  reflexivity.
Qed.

(** [generateForLevel] returns, for every level and every state of the random
    source, a rhythm of two bars whose tokens come from the pool of the level
    or from the padding loop. *)
Lemma generateForLevel_spec (levelKey : LevelKey) (g : RNG) :
  exists bar0 bar1 g',
    generateForLevel levelKey g = Some (mkRhythm [bar0; bar1], g')
    /\ Forall (fun t => In t (levelPool levelKey) \/ t = smallest) bar0
    /\ Forall (fun t => In t (levelPool levelKey) \/ t = smallest) bar1.
Proof.
  unfold generateForLevel.
  destruct (allowedOf_levelPool levelKey) as [allowedTokens [Hallowed [Hpool Hne]]].
  rewrite Hallowed. unfold defined at 1. unfold bind at 1.
  destruct (resolveRequired_spec levelKey g) as [req [g1 [Hreq Hincl]]].
  rewrite (bind_Some _ _ _ _ _ Hreq).
  destruct (distribute_spec req [] [] g1) as [r0 [r1 [g2 [Hdist [H0 H1]]]]].
  rewrite (bind_Some _ _ _ _ _ Hdist). simpl fst. simpl snd. simpl in H0, H1.
  rewrite <- Hpool in Hne.
  destruct (fillBar_spec (LEVELS levelKey) allowedTokens (tripletGroup TYPES_quaver)
              r0 g2 Hne) as [bar0 [g3 [Hbar0 Hall0]]].
  rewrite (bind_Some _ _ _ _ _ Hbar0).
  destruct (fillBar_spec (LEVELS levelKey) allowedTokens (tripletGroup TYPES_quaver)
              r1 g3 Hne) as [bar1 [g4 [Hbar1 Hall1]]].
  rewrite (bind_Some _ _ _ _ _ Hbar1).
  exists bar0, bar1, g4. split; [reflexivity|].
  rewrite Hpool in Hall0, Hall1.
  split; (eapply Forall_impl; [|eassumption]); intros t [Ht|[Ht|Ht]]; auto.
Qed.

(** *** generateOptions *)

Lemma Set_has_false (seen : list string) (key : string) :
  Set_has seen key = false -> ~ In key seen.
Proof.
  unfold Set_has. intros H Hin.
  assert (existsb (String.eqb key) seen = true) as Ht.
  { apply existsb_exists. exists key. split; [exact Hin | apply String.eqb_refl]. }
  rewrite Ht in H. discriminate.
Qed.

(** The collecting loop returns; it only appends to [options], never beyond
    four, and keeps the keys of the options pairwise different as long as
    [seen] holds exactly these keys. *)
Lemma collectOptions_spec (levelKey : LevelKey) (left : nat) :
  forall (options : list Bars) (seen : list string) (g : RNG),
  exists added seen' g',
    collectOptions levelKey left options seen g
      = Some ((options ++ added, seen'), g')
    /\ ((List.length options <= 4)%nat -> (List.length (options ++ added) <= 4)%nat)
    /\ ((forall k, In k seen <-> In k (map barsKey options)) ->
        NoDup (map barsKey options) ->
        NoDup (map barsKey (options ++ added))).
Proof.
  induction left as [|left IH]; intros options seen g.
  - exists [], seen, g. simpl. rewrite app_nil_r. repeat split; auto.
  - simpl. destruct (List.length options <? 4)%nat eqn:Hlen.
    + apply Nat.ltb_lt in Hlen.
      destruct (generateForLevel_spec levelKey g) as [bar0 [bar1 [g1 [Hgen _]]]].
      rewrite (bind_Some _ _ _ _ _ Hgen). cbn [bars].
      destruct (Set_has seen (barsKey [bar0; bar1])) eqn:Hseen.
      * apply IH.
      * destruct (IH (options ++ [[bar0; bar1]]) (barsKey [bar0; bar1] :: seen) g1)
          as [added [seen' [g' [Hrun [Hle Hdup]]]]].
        exists ([bar0; bar1] :: added), seen', g'.
        rewrite <- app_assoc in Hrun, Hle, Hdup. simpl in Hrun, Hle, Hdup.
        split; [exact Hrun|]. split.
        -- intros _. apply Hle. rewrite length_app. simpl. lia.
        -- intros Hsame Hnodup. apply Hdup.
           ++ intros k. rewrite map_app, in_app_iff. simpl. rewrite Hsame. tauto.
           ++ rewrite map_app. simpl.
              apply Set_has_false in Hseen. rewrite Hsame in Hseen.
              apply NoDup_app_remove_l with (l := []). simpl.
              apply Permutation_NoDup
                with (l := barsKey [bar0; bar1] :: map barsKey options).
              ** apply Permutation_cons_append.
              ** constructor; assumption.
    + exists [], seen, g. unfold ret. rewrite app_nil_r. repeat split; auto.
Qed.

Lemma padOptions_loop_spec (correctBars : Bars) (turns : nat) :
  forall options : list Bars,
    padOptions_loop turns correctBars options
    = options ++ repeat (cloneBars correctBars)
                        (Nat.min turns (4 - List.length options)).
Proof.
  induction turns as [|turns IH]; intros opts; simpl padOptions_loop.
  - simpl. rewrite app_nil_r. reflexivity.
  - destruct (List.length opts <? 4)%nat eqn:Hlen.
    + apply Nat.ltb_lt in Hlen. rewrite IH, length_app. simpl List.length.
      replace (4 - List.length opts)%nat
        with (S (4 - (List.length opts + 1)))%nat by lia.
      rewrite <- Nat.succ_min_distr. simpl repeat.
      rewrite <- app_assoc. reflexivity.
    + apply Nat.ltb_ge in Hlen.
      replace (4 - List.length opts)%nat with 0%nat by lia.
      rewrite Nat.min_0_r. simpl. rewrite app_nil_r. reflexivity.
Qed.

(** The padding of the options stops because four options are there. *)
Lemma padOptions_spec (correctBars : Bars) (opts : list Bars) :
  padOptions correctBars opts
  = opts ++ repeat (cloneBars correctBars) (4 - List.length opts).
Proof.
  unfold padOptions. rewrite padOptions_loop_spec, Nat.min_id. reflexivity.
Qed.

Lemma Array_mapi_from_fst {A : Type} (arr : list A) :
  forall i : Z, map fst (Array_mapi_from (fun o i => (o, i)) i arr) = arr.
Proof.
  induction arr as [|x arr IH]; intros i; simpl.
  - reflexivity.
  - rewrite IH. reflexivity.
Qed.

Lemma Array_mapi_from_snd {A : Type} (arr : list A) :
  forall (i : Z) (x : A * Z),
    In x (Array_mapi_from (fun o i => (o, i)) i arr) -> i <= snd x.
Proof.
  induction arr as [|y arr IH]; intros i x Hx; simpl in Hx.
  - contradiction.
  - destruct Hx as [<-|Hx].
    + simpl. lia.
    + apply IH in Hx. lia.
Qed.

Lemma Array_findIndex_from_spec {A : Type} (p : A -> bool) (arr : list A) :
  forall i : Z,
    (exists x, In x arr /\ p x = true) ->
    exists (n : nat) (y : A),
      Array_findIndex_from p i arr = i + Z.of_nat n
      /\ nth_error arr n = Some y /\ p y = true.
Proof.
  induction arr as [|a arr IH]; intros i [x [Hin Hp]].
  - contradiction.
  - simpl. destruct (p a) eqn:Hpa.
    + exists 0%nat, a. simpl. repeat split; [lia | exact Hpa].
    + destruct Hin as [->|Hin]; [rewrite Hp in Hpa; discriminate|].
      destruct (IH (i + 1)) as [n [y [Hidx [Hnth Hy]]]].
      { exists x. split; assumption. }
      exists (S n), y. simpl. repeat split; [lia | exact Hnth | exact Hy].
Qed.

(** When the required tokens already fill the bar or more, nothing is
    sampled and nothing is padded: the bar that reaches the final validation
    is the required tokens after the trimming loop. *)
Lemma fillBar_validated_overfull (cfg : LevelCfg) (allowedTokens : list Token)
    (tripletTemplate : Token) (req : list Token) (g : RNG) :
  poolOf cfg allowedTokens tripletTemplate <> [] ->
  UNITS_PER_BAR <= barUnits req ->
  fillBar_validated cfg allowedTokens tripletTemplate req g
  = Some (trimOverfill 50 req (barUnits req), g).
Proof.
  intros Hne Hfull. unfold fillBar_validated, fillBar_untrimmed.
  rewrite placeRequired_spec. cbn [fst snd].
  assert (greedyFill (poolOf cfg allowedTokens tripletTemplate) maxTries req
                     (barUnits req) g = Some ((req, barUnits req), g)) as Hrun.
  { generalize maxTries. intros left. destruct left as [|left]; [reflexivity|].
    cbn [greedyFill].
    assert ((barUnits req <? UNITS_PER_BAR) = false) as ->
      by (apply Z.ltb_ge; exact Hfull).
    reflexivity. }
  unfold bind at 1. unfold bind at 1. rewrite Hrun. unfold ret. cbn [fst snd].
  rewrite padFill_full. cbn [fst snd].
  replace (Z.to_nat (UNITS_PER_BAR - barUnits req)) with 0%nat by lia.
  cbn [repeat]. rewrite app_nil_r.
  replace (Z.max (barUnits req) UNITS_PER_BAR) with (barUnits req) by lia.
  reflexivity.
Qed.

(** The defect behind the short bars: when the distribution sends the minim,
    the crotchet and the dotted minim of the medium level to bar 0, the bar is
    overfilled, the trimming loop pops the dotted minim, and 24 units stay, on
    every runtime. *)
Lemma fillBar_medium_short (allowedTokens : list Token) (g : RNG) :
  poolOf (LEVELS medium) allowedTokens (tripletGroup TYPES_quaver) <> [] ->
  exists bar g',
    fillBar (LEVELS medium) allowedTokens (tripletGroup TYPES_quaver)
            [TYPES_minim; TYPES_crotchet; dottedOf TYPES_minim] g = Some (bar, g')
    /\ barUnits bar = 24.
Proof.
  intros Hne.
  assert (fillBar_validated (LEVELS medium) allowedTokens (tripletGroup TYPES_quaver)
            [TYPES_minim; TYPES_crotchet; dottedOf TYPES_minim] g
          = Some (([TYPES_minim; TYPES_crotchet], 24), g)) as Hval.
  { rewrite fillBar_validated_overfull.
    - reflexivity.
    - exact Hne.
    - discriminate. }
  destruct (fillBar_perm _ _ _ _ _ _ _ _ Hval) as [bar [g' [Hfill Hperm]]].
  exists bar, g'. split; [exact Hfill|].
  rewrite (barUnits_perm _ _ Hperm). reflexivity.
Qed.

Lemma generateForLevel_medium_short (g g0 g1 : RNG) (req r1 : list Token) :
  resolveRequired (LEVELS medium) (tripletGroup TYPES_quaver) g = Some (req, g0) ->
  distribute req [] [] g0
    = Some (([TYPES_minim; TYPES_crotchet; dottedOf TYPES_minim], r1), g1) ->
  exists bar0 bar1 g',
    generateForLevel medium g = Some (mkRhythm [bar0; bar1], g')
    /\ barUnits bar0 = 24.
Proof.
  intros Hreq Hdist.
  destruct (allowedOf_levelPool medium) as [allowedTokens [Hallowed [Hpool Hne]]].
  rewrite <- Hpool in Hne.
  destruct (fillBar_medium_short allowedTokens g1 Hne) as [bar0 [g2 [Hfill Hunits]]].
  destruct (fillBar_spec (LEVELS medium) allowedTokens (tripletGroup TYPES_quaver)
              r1 g2 Hne) as [bar1 [g3 [Hbar1 _]]].
  exists bar0, bar1, g3. split; [|exact Hunits].
  exact (generateForLevel_steps medium _ _ _ _ _ _ _ _ _ _ _
           Hallowed Hreq Hdist Hfill Hbar1).
Qed.

(** The same defect loses required tokens: when the distribution sends the
    semibreve and the triplet group to bar 0 and the other five required
    tokens of the medium level to bar 1, the trimming loop pops the triplet
    group and the dotted minim, nothing is sampled, and the rhythm has
    neither a dotted token nor a triplet group, on every runtime. *)
Lemma fillBar_overfull (cfg : LevelCfg) (allowedTokens : list Token)
    (tripletTemplate : Token) (req : list Token) (g : RNG) :
  poolOf cfg allowedTokens tripletTemplate <> [] ->
  UNITS_PER_BAR <= barUnits req ->
  exists bar g',
    fillBar cfg allowedTokens tripletTemplate req g = Some (bar, g')
    /\ Permutation bar (fst (trimOverfill 50 req (barUnits req))).
Proof.
  intros Hne Hfull.
  pose proof (fillBar_validated_overfull cfg allowedTokens tripletTemplate req g
                Hne Hfull) as Hval.
  destruct (trimOverfill 50 req (barUnits req)) as [kept used] eqn:Htrim.
  destruct (fillBar_perm _ _ _ _ _ _ _ _ Hval) as [bar [g' [Hfill Hperm]]].
  exists bar, g'. split; [exact Hfill | exact Hperm].
Qed.

Lemma generateForLevel_medium_loses_required (g g0 g1 : RNG) (req : list Token) :
  resolveRequired (LEVELS medium) (tripletGroup TYPES_quaver) g = Some (req, g0) ->
  distribute req [] [] g0
    = Some (([TYPES_semibreve; tripletGroup TYPES_quaver],
             [TYPES_minim; TYPES_crotchet; TYPES_quaver; TYPES_semiquaver;
              dottedOf TYPES_minim]), g1) ->
  exists bar0 bar1 g',
    generateForLevel medium g = Some (mkRhythm [bar0; bar1], g')
    /\ Forall (fun t => isDotted t = false /\ isTriplet t = false) (bar0 ++ bar1).
Proof.
  intros Hreq Hdist.
  destruct (allowedOf_levelPool medium) as [allowedTokens [Hallowed [Hpool Hne]]].
  rewrite <- Hpool in Hne.
  destruct (fillBar_overfull (LEVELS medium) allowedTokens (tripletGroup TYPES_quaver)
              [TYPES_semibreve; tripletGroup TYPES_quaver] g1 Hne)
    as [bar0 [g2 [Hfill0 Hperm0]]]; [discriminate|].
  destruct (fillBar_overfull (LEVELS medium) allowedTokens (tripletGroup TYPES_quaver)
              [TYPES_minim; TYPES_crotchet; TYPES_quaver; TYPES_semiquaver;
               dottedOf TYPES_minim] g2 Hne)
    as [bar1 [g3 [Hfill1 Hperm1]]]; [discriminate|].
  exists bar0, bar1, g3. split.
  - exact (generateForLevel_steps medium _ _ _ _ _ _ _ _ _ _ _
             Hallowed Hreq Hdist Hfill0 Hfill1).
  - apply Forall_app. split; apply Forall_forall; intros t Ht.
    + apply (Permutation_in _ Hperm0) in Ht. simpl in Ht.
      destruct Ht as [<-|[]]. split; reflexivity.
    + apply (Permutation_in _ Hperm1) in Ht. simpl in Ht.
      repeat (destruct Ht as [<-|Ht]; [split; reflexivity|]). contradiction.
Qed.

(** The three steps of [generateOptions]. *)
Lemma generateOptions_steps (correctBars : Bars) (levelKey : LevelKey)
    (g g1 g2 : RNG) (collected : list Bars) (seen : list string)
    (order : list (Bars * Z)) :
  collectOptions levelKey 200 [correctBars] [barsKey correctBars] g
    = Some ((collected, seen), g1) ->
  sort_random (Array_mapi_from (fun o i => (o, i)) 0
                               (padOptions correctBars collected)) g1
    = (order, g2) ->
  generateOptions correctBars levelKey g
  = Some (mkOptionSet (map fst order)
                      (Array_findIndex (fun x : Bars * Z => snd x =? 0) order), g2).
Proof.
  intros Hcollect Hsort. unfold generateOptions.
  rewrite (bind_Some _ _ _ _ _ Hcollect). cbn [fst].
  unfold bind, shuffle. rewrite Hsort. reflexivity.
Qed.

(** C2.  For every correct rhythm, every level and every state of the random
    source, [generateOptions] returns (it does not throw) four options and a
    [correctIndex] between 0 and 3; the option at [correctIndex] is the rhythm
    passed in as correct, so it has its canonical key; and the four options
    are the correct rhythm, at most three generated ones, and copies of the
    correct rhythm in the slots that are left. *)
Theorem generateOptions_four_with_correct
    (correctBars : Bars) (levelKey : LevelKey) (g : RNG) :
  exists res g',
    generateOptions correctBars levelKey g = Some (res, g')
    /\ List.length (options res) = 4%nat
    /\ 0 <= correctIndex res <= 3
    /\ (exists o, nth_error (options res) (Z.to_nat (correctIndex res)) = Some o
                  /\ o = correctBars /\ barsKey o = barsKey correctBars)
    /\ (exists found,
          Permutation (options res)
            (correctBars :: found
               ++ repeat (cloneBars correctBars) (3 - List.length found))).
Proof.
  unfold generateOptions.
  destruct (collectOptions_spec levelKey 200 [correctBars] [barsKey correctBars] g)
    as [found [seen' [g1 [Hrun [Hle _]]]]].
  rewrite (bind_Some _ _ _ _ _ Hrun). simpl fst.
  rewrite padOptions_spec.
  assert (List.length found <= 3)%nat as Hfound.
  { assert (List.length ([correctBars] ++ found) <= 4)%nat as Hle'
      by (apply Hle; simpl; lia).
    simpl in Hle'. lia. }
  match goal with
  | |- context [Array_mapi_from _ 0 ?p] => set (padded := p)
  end.
  assert (padded = correctBars :: found
                     ++ repeat (cloneBars correctBars) (3 - List.length found))
    as Hpadded by reflexivity.
  assert (List.length padded = 4%nat) as Hlen.
  { rewrite Hpadded. cbn [List.length]. rewrite length_app, repeat_length. lia. }
  unfold bind, shuffle.
  pose proof (sort_random_perm _ (Array_mapi_from (fun o i => (o, i)) 0 padded) g1)
    as Hperm.
  destruct (sort_random (Array_mapi_from (fun o i => (o, i)) 0 padded) g1)
    as [order g2].
  simpl fst in Hperm. unfold ret.
  eexists. exists g2. split; [reflexivity|].
  cbn [options correctIndex].
  assert (Permutation (map fst order) padded) as Hshuffled.
  { eapply Permutation_trans; [apply Permutation_map; exact Hperm|].
    rewrite Array_mapi_from_fst. apply Permutation_refl. }
  assert (In (correctBars, 0) order) as Hin.
  { eapply Permutation_in; [apply Permutation_sym; exact Hperm|].
    rewrite Hpadded. simpl. left. reflexivity. }
  destruct (Array_findIndex_from_spec (fun x : Bars * Z => snd x =? 0) order 0)
    as [n [y [Hidx [Hnth Hy]]]].
  { exists (correctBars, 0). split; [exact Hin | reflexivity]. }
  assert (y = (correctBars, 0)) as ->.
  { apply nth_error_In in Hnth.
    apply (Permutation_in _ Hperm) in Hnth.
    rewrite Hpadded in Hnth. simpl in Hnth.
    destruct Hnth as [<-|Htail]; [reflexivity|].
    apply Array_mapi_from_snd in Htail.
    apply Z.eqb_eq in Hy. lia. }
  assert (n < List.length order)%nat as Hn.
  { apply nth_error_Some. rewrite Hnth. discriminate. }
  assert (List.length order = 4%nat) as Horder.
  { rewrite <- (length_map fst), (Permutation_length Hshuffled). exact Hlen. }
  unfold Array_findIndex. rewrite Hidx.
  split; [rewrite length_map; exact Horder|].
  split; [lia|].
  split.
  - exists correctBars.
    replace (Z.to_nat (0 + Z.of_nat n)) with n by lia.
    split; [|split; reflexivity].
    rewrite (nth_error_map fst), Hnth. reflexivity.
  - exists found. rewrite <- Hpadded. exact Hshuffled.
Qed.

(** C4.  Whenever the collecting loop of [generateOptions] ends with four
    options (so that the padding loop adds none), [generateOptions] returns
    exactly these four options, in some order, and the four options returned
    have pairwise different canonical keys. *)
Theorem generateOptions_distinct_within_budget
    (correctBars : Bars) (levelKey : LevelKey) (g g1 : RNG)
    (collected : list Bars) (seen : list string) :
  collectOptions levelKey 200 [correctBars] [barsKey correctBars] g
    = Some ((collected, seen), g1) ->
  List.length collected = 4%nat ->
  exists res g2,
    generateOptions correctBars levelKey g = Some (res, g2)
    /\ List.length (options res) = 4%nat
    /\ Permutation (options res) collected
    /\ NoDup (map barsKey (options res))
    /\ forall (i j : nat) (a b : Bars),
         nth_error (options res) i = Some a ->
         nth_error (options res) j = Some b ->
         i <> j -> barsKey a <> barsKey b.
Proof.
  intros Hcollect Hfour.
  destruct (collectOptions_spec levelKey 200 [correctBars] [barsKey correctBars] g)
    as [found [seen' [g1' [Hrun [_ Hdup]]]]].
  assert (collected = [correctBars] ++ found) as Hc by congruence.
  assert (NoDup (map barsKey collected)) as Hnodup.
  { rewrite Hc. apply Hdup.
    - intros k. simpl. tauto.
    - simpl. constructor; [intros []| constructor]. }
  assert (padOptions correctBars collected = collected) as Hpad.
  { rewrite padOptions_spec, Hfour. apply app_nil_r. }
  pose proof (sort_random_perm _
                (Array_mapi_from (fun o i => (o, i)) 0
                                 (padOptions correctBars collected)) g1) as Hperm.
  destruct (sort_random (Array_mapi_from (fun o i => (o, i)) 0
                                         (padOptions correctBars collected)) g1)
    as [order g3] eqn:Hsort.
  cbn [fst] in Hperm.
  pose proof (generateOptions_steps _ _ _ _ _ _ _ _ Hcollect Hsort) as Hsteps.
  exists (mkOptionSet (map fst order)
                      (Array_findIndex (fun x : Bars * Z => snd x =? 0) order)), g3.
  split; [exact Hsteps|]. cbn [options].
  assert (Permutation (map fst order) collected) as Hsame.
  { eapply Permutation_trans; [apply Permutation_map; exact Hperm|].
    rewrite Array_mapi_from_fst, Hpad. apply Permutation_refl. }
  assert (NoDup (map barsKey (map fst order))) as Hkeys.
  { eapply Permutation_NoDup; [|exact Hnodup].
    apply Permutation_sym. apply Permutation_map. exact Hsame. }
  split; [rewrite (Permutation_length Hsame); exact Hfour|].
  split; [exact Hsame|]. split; [exact Hkeys|].
  intros i j a b Hi Hj Hij Hkey. apply Hij.
  assert (i < List.length (map barsKey (map fst order)))%nat as Hilen.
  { rewrite length_map. apply nth_error_Some. rewrite Hi. discriminate. }
  apply (proj1 (NoDup_nth_error _) Hkeys i j Hilen).
  rewrite !(nth_error_map barsKey), Hi, Hj. simpl. rewrite Hkey. reflexivity.
Qed.

End GenerationFacts.

(* ================================================================== *)
(** ** The canonical key *)
(* ================================================================== *)

(** Every rhythm that [generateForLevel] returns is a rhythm in the sense of
    [is_rhythm]: two bars of catalog tokens. *)
Lemma generateForLevel_is_rhythm {rt : JSRuntime} (levelKey : LevelKey) (g : RNG) :
  exists r g',
    generateForLevel levelKey g = Some (r, g') /\ is_rhythm (bars r) = true.
Proof.
  destruct (generateForLevel_spec levelKey g) as [bar0 [bar1 [g' [Hgen [H0 H1]]]]].
  exists (mkRhythm [bar0; bar1]), g'. split; [exact Hgen|].
  assert (forall t, In t (levelPool levelKey) \/ t = smallest -> in_catalog t = true)
    as Hcat.
  { intros t [Ht| ->]; [|reflexivity].
    destruct levelKey; simpl in Ht;
      repeat (destruct Ht as [<-|Ht]; [reflexivity|]); contradiction. }
  unfold is_rhythm. cbn [bars List.length Nat.eqb andb forallb].
  rewrite andb_true_r. apply andb_true_intro.
  split; apply forallb_forall; intros t Ht; apply Hcat.
  - rewrite Forall_forall in H0. apply H0. exact Ht.
  - rewrite Forall_forall in H1. apply H1. exact Ht.
Qed.

(** C5.  On rhythms (two bars of catalog tokens) the canonical key is a function
    of the ordered bars and their ordered tokens that tells rhythms apart:
    two rhythms have equal keys if and only if they are identical, bar by bar
    and token by token; a rhythm and a copy built token by token have the
    same key. *)
Theorem barsKey_equal_iff_identical (b1 b2 : Bars) :
  is_rhythm b1 = true -> is_rhythm b2 = true ->
  (barsKey b1 = barsKey b2 <-> b1 = b2)
  /\ barsKey (cloneBars b1) = barsKey b1.
Proof.
  intros H1 H2.
  apply is_rhythm_catalog in H1. destruct H1 as [Hl1 Hc1].
  apply is_rhythm_catalog in H2. destruct H2 as [Hl2 Hc2].
  split; [split|].
  - intros Hkey. apply barsKey_inj_same_length; try assumption. congruence.
  - intros ->. reflexivity.
  - rewrite cloneBars_same. reflexivity.
Qed.

Lemma barsKey_equal_iff_identical_witness :
  is_rhythm [[TYPES_semibreve]; [TYPES_minim; dottedOf TYPES_crotchet; TYPES_quaver]] = true
  /\ is_rhythm [[TYPES_semibreve]; [TYPES_minim; TYPES_quaver; dottedOf TYPES_crotchet]] = true
  /\ ((barsKey [[TYPES_semibreve]; [TYPES_minim; dottedOf TYPES_crotchet; TYPES_quaver]]
       = barsKey [[TYPES_semibreve]; [TYPES_minim; TYPES_quaver; dottedOf TYPES_crotchet]]
       <-> [[TYPES_semibreve]; [TYPES_minim; dottedOf TYPES_crotchet; TYPES_quaver]]
           = [[TYPES_semibreve]; [TYPES_minim; TYPES_quaver; dottedOf TYPES_crotchet]])
      /\ barsKey (cloneBars [[TYPES_semibreve];
                             [TYPES_minim; dottedOf TYPES_crotchet; TYPES_quaver]])
         = barsKey [[TYPES_semibreve]; [TYPES_minim; dottedOf TYPES_crotchet; TYPES_quaver]]).
Proof.
  split; [reflexivity|]. split; [reflexivity|].
  apply barsKey_equal_iff_identical; reflexivity.
Defined.

(** C10.  Copying a rhythm token by token keeps its canonical key, so every option
    that the padding loop of [generateOptions] appends has the key of the
    correct rhythm. *)
Theorem cloneBars_keeps_key (b : Bars) (opts : list Bars) :
  barsKey (cloneBars b) = barsKey b
  /\ exists n,
       padOptions b opts = opts ++ repeat (cloneBars b) n
       /\ Forall (fun o => barsKey o = barsKey b) (repeat (cloneBars b) n).
Proof.
  assert (barsKey (cloneBars b) = barsKey b) as Hkey
    by (rewrite cloneBars_same; reflexivity).
  split; [exact Hkey|].
  exists (4 - List.length opts)%nat. split; [apply padOptions_spec|].
  apply Forall_forall. intros o Ho. apply repeat_spec in Ho. subst o. exact Hkey.
Qed.

(* ================================================================== *)
(** ** Runs on the reference runtime *)
(* ================================================================== *)

(** C1.  On the draws 0.5, 0, 0, 0.5, 0.5, 0, 0.5 the medium level sends the
    minim, the crotchet and the dotted minim to bar 0: 48 units.  The
    trimming loop pops the dotted minim and the bar is returned with 24
    units, not 32. *)
Theorem medium_bar_of_24_units :
  exists r,
    run (generateForLevel medium) (mkState [HALF; 0; 0; HALF; HALF; 0; HALF]%N 0)
      = Some r
    /\ map barUnits (bars r) = [24; 32]
    /\ map (fun bar => List.length bar) (bars r) = [2%nat; 1%nat].
Proof.
  eexists. split; [vm_compute; reflexivity|]. split; reflexivity.
Qed.

(** C3.  On the draws 0, 0.5, 0.5, 0.5, 0.5, 0.5, 0 the medium level sends the
    semibreve and the triplet group to bar 0 and the other five required
    tokens to bar 1; the trimming loop pops the triplet group from bar 0 and
    the dotted minim from bar 1, and the rhythm returned has neither a dotted
    token nor a triplet group. *)
Theorem medium_without_dotted_and_triplet :
  exists r,
    run (generateForLevel medium) (mkState [0; HALF; HALF; HALF; HALF; HALF; 0]%N 0)
      = Some r
    /\ existsb isDotted (List.concat (bars r)) = false
    /\ existsb isTriplet (List.concat (bars r)) = false
    /\ map barUnits (bars r) = [32; 30].
Proof.
  eexists. split; [vm_compute; reflexivity|]. repeat split; reflexivity.
Qed.

(** C7.  When every draw is 0 the easy level sends its four required tokens to
    bar 0: the bar reaches the trimming loop with 60 units, more than
    [UNITS_PER_BAR], and the loop pops three tokens. *)
Theorem easy_bar_reaches_trimming_overfilled :
  exists s1,
    allowedOf (LEVELS easy) = Some easyTokens
    /\ resolveRequired (LEVELS easy) (tripletGroup TYPES_quaver) (mkState [] 0)
       = Some (easyTokens, mkState [] 0)
    /\ distribute easyTokens [] [] (mkState [] 0) = Some ((easyTokens, []), s1)
    /\ fillBar_untrimmed (LEVELS easy) easyTokens (tripletGroup TYPES_quaver)
                         easyTokens s1 = Some ((easyTokens, 60), s1)
    /\ (60 >? UNITS_PER_BAR) = true
    /\ trimOverfill 50 easyTokens 60 = ([TYPES_semibreve], 32).
Proof.
  eexists. split; [reflexivity|]. split; [reflexivity|].
  split; [vm_compute; reflexivity|]. split; [vm_compute; reflexivity|].
  split; reflexivity.
Qed.

(** On the draws 0, 0, 0, 0.5 and then 0 for ever, the easy level leaves the
    quaver alone in bar 1; every one of the 1000 samples is the semibreve,
    which does not fit, and the padding loop appends 28 demisemiquavers. *)
Lemma easy_bar_padded_with_demisemiquavers :
  exists r,
    run (generateForLevel easy) (mkState [0; 0; 0; HALF]%N 0) = Some r
    /\ forallb (fun t => existsb (String.eqb (name t))
                                 ["semibreve"; "minim"; "crotchet"; "quaver"])
               (List.concat (bars r)) = false
    /\ map (fun bar => count_occ string_dec (map name bar) "demisemiquaver")
           (bars r) = [0%nat; 28%nat].
Proof.
  eexists. split; [vm_compute; reflexivity|]. split; vm_compute; reflexivity.
Qed.

(** A run of [generateOptions] on the medium level in which the collecting
    loop finds three new rhythms. *)
Lemma generateOptions_distinct_within_budget_witness :
  exists correctBars collected seen s1,
    run (generateForLevel medium) (mkState [] 12345) = Some (mkRhythm correctBars)
    /\ collectOptions medium 200 [correctBars] [barsKey correctBars] (mkState [] 777)
       = Some ((collected, seen), s1)
    /\ List.length collected = 4%nat
    /\ exists res s2,
         generateOptions correctBars medium (mkState [] 777) = Some (res, s2)
         /\ List.length (options res) = 4%nat
         /\ Permutation (options res) collected
         /\ NoDup (map barsKey (options res))
         /\ forall (i j : nat) (a b : Bars),
              nth_error (options res) i = Some a ->
              nth_error (options res) j = Some b ->
              i <> j -> barsKey a <> barsKey b.
Proof.
  eexists. eexists. eexists. eexists.
  split; [vm_compute; reflexivity|].
  assert (forall (A B : Prop), A -> (A -> B) -> A /\ B) as Hand by tauto.
  apply Hand; [vm_compute; reflexivity | intros Hcollect].
  apply Hand; [reflexivity | intros Hfour].
  exact (generateOptions_distinct_within_budget _ _ _ _ _ _ Hcollect Hfour).
Defined.

(* ================================================================== *)
(** ** The choice of half of the types *)
(* ================================================================== *)

Lemma next_same_signs (s s' : State) :
  same_signs s s' ->
  lt_half (fst (next s)) = lt_half (fst (next s'))
  /\ same_signs (snd (next s)) (snd (next s')).
Proof.
  intros [Hseed Hsigns]. unfold next.
  destruct s as [ts sd], s' as [ts' sd']. simpl in *. subst sd'.
  destruct ts as [|t ts], ts' as [|t' ts']; try discriminate; simpl in *.
  - split; [reflexivity | split; reflexivity].
  - injection Hsigns as Ht Hts. split; [exact Ht | split; [reflexivity | exact Hts]].
Qed.

Lemma insert_left_same_signs {A : Type} (element : A) (sorted_rev : list A) :
  forall s s' : State,
    same_signs s s' ->
    fst (insert_left element sorted_rev s) = fst (insert_left element sorted_rev s')
    /\ same_signs (snd (insert_left element sorted_rev s))
                  (snd (insert_left element sorted_rev s')).
Proof.
  induction sorted_rev as [|tmp rest IH]; intros s s' Hs; simpl.
  - split; [reflexivity | exact Hs].
  - destruct (next_same_signs s s' Hs) as [Hd Hn].
    destruct (next s) as [d s1], (next s') as [d' s1']. simpl in Hd, Hn.
    rewrite <- Hd. destruct (lt_half d).
    + destruct (IH s1 s1' Hn) as [Hl Hr].
      destruct (insert_left element rest s1) as [placed s2].
      destruct (insert_left element rest s1') as [placed' s2'].
      simpl in *. subst placed'. split; [reflexivity | exact Hr].
    + simpl. split; [reflexivity | exact Hn].
Qed.

Lemma insertion_loop_same_signs {A : Type} (todo : list A) :
  forall (sorted_rev : list A) (s s' : State),
    same_signs s s' ->
    fst (insertion_loop todo sorted_rev s) = fst (insertion_loop todo sorted_rev s').
Proof.
  induction todo as [|element rest IH]; intros sorted_rev s s' Hs; simpl.
  - reflexivity.
  - destruct (insert_left_same_signs element sorted_rev s s' Hs) as [Hl Hr].
    destruct (insert_left element sorted_rev s) as [l1 s1].
    destruct (insert_left element sorted_rev s') as [l1' s1'].
    simpl in *. subst l1'. apply IH. exact Hr.
Qed.

Lemma script_of_signs (signs : list bool) : map sign (script_of signs) = signs.
Proof.
  induction signs as [|b signs IH]; simpl.
  - reflexivity.
  - rewrite IH. destruct b; reflexivity.
Qed.

(** The types chosen depend on the scripted draws through their signs
    only. *)
Lemma choose_same_signs (s s' : State) :
  same_signs s s' ->
  option_map fst (choose s) = option_map fst (choose s').
Proof.
  intros Hs. unfold choose.
  change (resolveRequired (LEVELS difficult) (tripletGroup TYPES_quaver))
    with (bind (shuffle (allowed (LEVELS difficult)))
               (fun shuffled =>
                  defined (lookupAll
                    (firstn (chooseCount (allowed (LEVELS difficult))) shuffled)))).
  unfold bind, shuffle, defined.
  cbn [sort_random runtime].
  unfold insertion_sort.
  pose proof (insertion_loop_same_signs (allowed (LEVELS difficult)) [] s s' Hs)
    as Hsame.
  destruct (insertion_loop (allowed (LEVELS difficult)) [] s) as [l1 s1].
  destruct (insertion_loop (allowed (LEVELS difficult)) [] s') as [l2 s2].
  simpl in Hsame. rewrite <- Hsame.
  destruct (lookupAll (firstn (chooseCount (allowed (LEVELS difficult))) l1));
    reflexivity.
Qed.

Lemma list_eqb_eq {A : Type} (eqb : A -> A -> bool) (l1 : list A) :
  (forall a b, eqb a b = true -> a = b) ->
  forall l2, list_eqb eqb l1 l2 = true -> l1 = l2.
Proof.
  intros Heq. induction l1 as [|a l1 IH]; intros [|b l2] H; try discriminate.
  - reflexivity.
  - simpl in H. apply andb_prop in H. destruct H as [Hab Hl].
    rewrite (Heq a b Hab), (IH l2 Hl). reflexivity.
Qed.

(** [choice_paths] lists the paths of the choice. *)
Lemma choice_paths_listed : complete_paths COMPARISONS [] = choice_paths.
Proof.
  apply (list_eqb_eq path_eqb).
  - intros [p1 c1] [p2 c2] H. unfold path_eqb in H. simpl in H.
    apply andb_prop in H. destruct H as [Hp Hc].
    apply (list_eqb_eq Bool.eqb) in Hp; [|apply Bool.eqb_prop].
    apply (list_eqb_eq String.eqb) in Hc; [|intros a b E; apply String.eqb_eq; exact E].
    subst. reflexivity.
  - vm_compute. reflexivity.
Qed.

(** Every path is taken in full by its run: the script is used up and no
    draw is asked beyond it. *)
Lemma choice_paths_complete :
  forallb (fun path =>
             match choose (mkState (script_of (fst path)) 1) with
             | Some (req, s') =>
                 (seed s' =? 1)%N && (List.length (script s') =? 0)%nat
                 && list_eqb String.eqb (map name req) (snd path)
             | None => false
             end) choice_paths = true.
Proof. vm_compute. reflexivity. Qed.

(** The paths share out all the vectors of 15 signs. *)
Lemma choice_paths_total :
  fold_right (fun path acc => (path_size (fst path) + acc)%N) 0%N choice_paths
  = (2 ^ N.of_nat COMPARISONS)%N.
Proof. apply N.eqb_eq. vm_compute. reflexivity. Qed.

(** On the reference runtime the choice of the three types is far from
    uniform: of the 32768 vectors of signs, 10752 lead to the three types
    that come first in [TYPES] and 64 to the three that come last, where a
    uniform choice among the 20 sets would give each the same number. *)
Lemma difficult_choice_not_uniform :
  frequency ["semibreve"; "minim"; "crotchet"] = 10752%N
  /\ frequency ["quaver"; "semiquaver"; "demisemiquaver"] = 64%N
  /\ frequency ["semibreve"; "minim"; "crotchet"]
     <> frequency ["quaver"; "semiquaver"; "demisemiquaver"].
Proof.
  assert (frequency ["semibreve"; "minim"; "crotchet"] = 10752%N) as HA
    by (apply N.eqb_eq; vm_compute; reflexivity).
  assert (frequency ["quaver"; "semiquaver"; "demisemiquaver"] = 64%N) as HB
    by (apply N.eqb_eq; vm_compute; reflexivity).
  split; [exact HA|]. split; [exact HB|].
  rewrite HA, HB. discriminate.
Qed.

(** C8.  For the difficult level each call resolves the required tokens as
    exactly 3 pairwise different base types out of the 6 of the catalog, on
    every runtime and from every state of the random source; the choice is
    made anew on each call, and two consecutive calls may choose different
    sets of three. *)
Theorem difficult_required_three_distinct :
  (forall (rt : JSRuntime) (g : RNG),
     exists req g',
       resolveRequired (LEVELS difficult) (tripletGroup TYPES_quaver) g = Some (req, g')
       /\ List.length req = 3%nat /\ NoDup req /\ incl req baseTokens)
  /\ List.length baseTokens = 6%nat
  /\ chooseCount (allowed (LEVELS difficult)) = 3%nat
  /\ (exists s req1 s1 req2 s2,
        resolveRequired (LEVELS difficult) (tripletGroup TYPES_quaver) s
          = Some (req1, s1)
        /\ resolveRequired (LEVELS difficult) (tripletGroup TYPES_quaver) s1
           = Some (req2, s2)
        /\ same_set (map name req1) (map name req2) = false).
Proof.
  split; [intros rt g; apply resolveRequired_difficult|].
  split; [reflexivity|]. split; [reflexivity|].
  exists (mkState [] 12345).
  eexists. eexists. eexists. eexists.
  split; [vm_compute; reflexivity|]. split; [vm_compute; reflexivity|].
  vm_compute. reflexivity.
Qed.

Lemma pow2_mod5 (n : nat) : ((2 ^ N.of_nat n) mod 5 <> 0)%N.
Proof.
  assert (forall m : nat,
             ((2 ^ N.of_nat m) mod 5 = 1 \/ (2 ^ N.of_nat m) mod 5 = 2
              \/ (2 ^ N.of_nat m) mod 5 = 3 \/ (2 ^ N.of_nat m) mod 5 = 4)%N) as Hcases.
  { induction m as [|m IH].
    - left. reflexivity.
    - rewrite Nat2N.inj_succ, N.pow_succ_r'.
      rewrite <- N.Div0.mul_mod_idemp_r.
      destruct IH as [-> | [-> | [-> | ->]]]; vm_compute; tauto. }
  destruct (Hcases n) as [-> | [-> | [-> | ->]]]; discriminate.
Qed.

(** No runtime that decides the choice from a fixed number of draws can make
    it uniform: the sequences of that many draws cannot be shared out equally
    among the 20 sets of three types, because their number is a power of
    two. *)
Remark equal_share_impossible (draws : nat) (share : N) :
  (N.of_nat (List.length type_choices) * share <> RESOLUTION ^ N.of_nat draws)%N.
Proof.
  change (List.length type_choices) with 20%nat.
  intros H.
  assert ((RESOLUTION ^ N.of_nat draws) mod 5 = 0)%N as Hmod.
  { rewrite <- H. change (N.of_nat 20) with (5 * 4)%N.
    rewrite <- N.mul_assoc, N.mul_comm. apply N.Div0.mod_mul. }
  unfold RESOLUTION in Hmod. rewrite <- N.pow_mul_r in Hmod.
  replace (53 * N.of_nat draws)%N with (N.of_nat (53 * draws)) in Hmod by lia.
  exact (pow2_mod5 _ Hmod).
Qed.

(* ================================================================== *)
(** * Further properties of the generator *)
(* ================================================================== *)

Section MoreGenerationFacts.
Context {rt : JSRuntime}.

Lemma sublists_length {A : Type} (l : list A) :
  forall s, In s (sublists l) -> (List.length s <= List.length l)%nat.
Proof.
  induction l as [|x l IH]; intros s Hs; simpl in Hs.
  - destruct Hs as [<-|[]]. simpl. lia.
  - apply in_app_or in Hs. destruct Hs as [Hs|Hs].
    + apply in_map_iff in Hs. destruct Hs as [s' [<- Hs']].
      simpl. specialize (IH s' Hs'). lia.
    + specialize (IH s Hs). simpl. lia.
Qed.

Lemma sublists_incl {A : Type} (l : list A) :
  forall s, In s (sublists l) -> incl s l.
Proof.
  induction l as [|x l IH]; intros s Hs; simpl in Hs.
  - destruct Hs as [<-|[]]. apply incl_refl.
  - apply in_app_or in Hs. destruct Hs as [Hs|Hs].
    + apply in_map_iff in Hs. destruct Hs as [s' [<- Hs']].
      intros y [<-|Hy]; [left; reflexivity | right; apply (IH s' Hs'); exact Hy].
    + intros y Hy. right. apply (IH s Hs). exact Hy.
Qed.

Lemma distribute_split (reqs : list Token) :
  forall (bar0 bar1 : list Token) (g : RNG),
  exists s0 s1 g',
    distribute reqs bar0 bar1 g = Some ((bar0 ++ s0, bar1 ++ s1), g')
    /\ In s0 (sublists reqs) /\ In s1 (sublists reqs)
    /\ Permutation (s0 ++ s1) reqs.
Proof.
  induction reqs as [|req rest IH]; intros bar0 bar1 g; simpl distribute.
  - exists [], [], g. rewrite !app_nil_r. repeat split; simpl; auto.
  - unfold bind, random. destruct (Math_random g) as [d g1].
    destruct (lt_half d).
    + destruct (IH (bar0 ++ [req]) bar1 g1) as [s0 [s1 [g' [Hrun [H0 [H1 Hp]]]]]].
      exists (req :: s0), s1, g'. rewrite <- app_assoc in Hrun. simpl in Hrun.
      split; [exact Hrun|]. simpl sublists. repeat split.
      * apply in_or_app. left. apply in_map. exact H0.
      * apply in_or_app. right. exact H1.
      * simpl. apply perm_skip. exact Hp.
    + destruct (IH bar0 (bar1 ++ [req]) g1) as [s0 [s1 [g' [Hrun [H0 [H1 Hp]]]]]].
      exists s0, (req :: s1), g'. rewrite <- app_assoc in Hrun. simpl in Hrun.
      split; [exact Hrun|]. simpl sublists. repeat split.
      * apply in_or_app. right. exact H0.
      * apply in_or_app. left. apply in_map. exact H1.
      * apply Permutation_sym. apply Permutation_cons_app.
        apply Permutation_sym. exact Hp.
Qed.

(** X1.  The distribution of the required tokens loses and repeats none: the
    two buckets together are a rearrangement of the required tokens, and
    each bucket keeps its tokens in the order in which they were required. *)
Theorem distribute_partitions (reqs : list Token) (g : RNG) :
  exists r0 r1 g',
    distribute reqs [] [] g = Some ((r0, r1), g')
    /\ Permutation (r0 ++ r1) reqs
    /\ In r0 (sublists reqs) /\ In r1 (sublists reqs).
Proof.
  destruct (distribute_split reqs [] [] g) as [s0 [s1 [g' [Hrun [H0 [H1 Hp]]]]]].
  exists s0, s1, g'. simpl in Hrun. repeat split; assumption.
Qed.

Lemma barUnits_repeat_smallest (k : nat) : barUnits (repeat smallest k) = Z.of_nat k.
Proof.
  induction k as [|k IH]; [reflexivity|].
  cbn [repeat barUnits fold_right]. fold (barUnits (repeat smallest k)).
  rewrite IH. cbn [units smallest]. lia.
Qed.

(** What reaches the final validation of [fillBar]: the required tokens, the
    sampled ones and the padding, less the tokens popped; the unit count kept
    by the loops is the sum of the units of the bar. *)
Lemma fillBar_validated_full (cfg : LevelCfg) (allowedTokens : list Token)
    (tripletTemplate : Token) (req : list Token) (g : RNG) :
  poolOf cfg allowedTokens tripletTemplate <> [] ->
  exists added padding popped kept used g',
    fillBar_validated cfg allowedTokens tripletTemplate req g = Some ((kept, used), g')
    /\ kept ++ popped = (req ++ added) ++ repeat smallest padding
    /\ used = barUnits kept
    /\ Forall (fun t => In t (poolOf cfg allowedTokens tripletTemplate)) added
    /\ (kept, used)
       = trimOverfill 50 ((req ++ added) ++ repeat smallest padding)
                      (Z.max (barUnits req + barUnits added) UNITS_PER_BAR)
    /\ Z.of_nat padding = Z.max 0 (UNITS_PER_BAR - (barUnits req + barUnits added))
    /\ (barUnits req <= UNITS_PER_BAR ->
        barUnits req + barUnits added <= UNITS_PER_BAR)
    /\ (UNITS_PER_BAR <= barUnits req -> added = []).
Proof.
  intros Hne. unfold fillBar_validated, fillBar_untrimmed.
  rewrite placeRequired_spec. cbn [fst snd].
  destruct (greedyFill_spec _ maxTries Hne req (barUnits req) g)
    as [added [g' [Hrun [Hall [Hle Hfull]]]]].
  unfold bind at 1. unfold bind at 1. rewrite Hrun. unfold ret. cbn [fst snd].
  rewrite padFill_full. cbn [fst snd].
  set (padding := Z.to_nat (UNITS_PER_BAR - (barUnits req + barUnits added))).
  set (tokens := (req ++ added) ++ repeat smallest padding).
  set (used0 := Z.max (barUnits req + barUnits added) UNITS_PER_BAR).
  destruct (trimOverfill_spec 50 tokens used0) as [popped [Hkept Hused]].
  destruct (trimOverfill 50 tokens used0) as [kept used] eqn:Htrim.
  cbn [fst snd] in Hkept, Hused.
  exists added, padding, popped, kept, used, g'.
  split; [reflexivity|].
  split; [symmetry; exact Hkept|].
  split.
  { assert (barUnits tokens = used0) as Htok.
    { unfold tokens, used0, padding.
      rewrite !barUnits_app, barUnits_repeat_smallest. lia. }
    rewrite Hkept, barUnits_app in Htok. lia. }
  split; [exact Hall|].
  split; [symmetry; exact Htrim|].
  split; [unfold padding; lia|].
  split; assumption.
Qed.

(** X2.  The unit count that the final validation of [fillBar] compares with
    32 is the true sum of the units of the bar, whatever the required tokens:
    the sampling, padding and trimming loops keep it in step with the
    tokens. *)
Theorem fillBar_validation_counts_the_bar (cfg : LevelCfg)
    (allowedTokens : list Token) (tripletTemplate : Token)
    (req : list Token) (g : RNG) :
  poolOf cfg allowedTokens tripletTemplate <> [] ->
  exists kept used g' bar g'',
    fillBar_validated cfg allowedTokens tripletTemplate req g = Some ((kept, used), g')
    /\ used = barUnits kept
    /\ fillBar cfg allowedTokens tripletTemplate req g = Some (bar, g'')
    /\ barUnits bar = used.
Proof.
  intros Hne.
  destruct (fillBar_validated_full cfg allowedTokens tripletTemplate req g Hne)
    as [added [padding [popped [kept [used [g' [Hval [_ [Hused _]]]]]]]]].
  destruct (fillBar_perm _ _ _ _ _ _ _ _ Hval) as [bar [g'' [Hfill Hperm]]].
  exists kept, used, g', bar, g''.
  repeat split; try assumption.
  rewrite (barUnits_perm _ _ Hperm). symmetry. exact Hused.
Qed.

Lemma trimOverfill_at_capacity (left : nat) (tokens : list Token) (used : Z) :
  used <= UNITS_PER_BAR -> trimOverfill left tokens used = (tokens, used).
Proof.
  intros Hle. destruct left as [|left]; [reflexivity|].
  cbn [trimOverfill].
  assert ((used >? UNITS_PER_BAR) = false) as ->
    by (rewrite Z.gtb_ltb; apply Z.ltb_ge; exact Hle).
  reflexivity.
Qed.

Lemma fillBar_required_fit (cfg : LevelCfg)
    (allowedTokens : list Token) (tripletTemplate : Token)
    (req : list Token) (g : RNG) :
  poolOf cfg allowedTokens tripletTemplate <> [] ->
  barUnits req <= UNITS_PER_BAR ->
  exists bar g' added padding,
    fillBar cfg allowedTokens tripletTemplate req g = Some (bar, g')
    /\ barUnits bar = UNITS_PER_BAR
    /\ Permutation bar ((req ++ added) ++ repeat smallest padding)
    /\ Forall (fun t => In t (poolOf cfg allowedTokens tripletTemplate)) added.
Proof.
  intros Hne Hfit.
  destruct (fillBar_validated_full cfg allowedTokens tripletTemplate req g Hne)
    as [added [padding [popped [kept [used [g' [Hval [_ [Hused [Hall
        [Htrim [Hpad [Hle _]]]]]]]]]]]]].
  specialize (Hle Hfit).
  rewrite trimOverfill_at_capacity in Htrim by lia.
  injection Htrim as Hkept Hused'.
  destruct (fillBar_perm _ _ _ _ _ _ _ _ Hval) as [bar [g'' [Hfill Hperm]]].
  exists bar, g'', added, padding.
  split; [exact Hfill|]. split; [|split].
  - rewrite (barUnits_perm _ _ Hperm), <- Hused, Hused'. lia.
  - rewrite <- Hkept. exact Hperm.
  - exact Hall.
Qed.

(** X3.  When the required tokens passed to [fillBar] fit in a bar (32 units
    at most), the bar returned holds every one of them, together with
    sampled tokens of the pool and padding, and sums to exactly 32 units. *)
Theorem fillBar_exact_when_required_fit (cfg : LevelCfg)
    (allowedTokens : list Token) (tripletTemplate : Token)
    (req : list Token) (g : RNG) :
  poolOf cfg allowedTokens tripletTemplate <> [] ->
  barUnits req <= UNITS_PER_BAR ->
  exists bar g' added padding,
    fillBar cfg allowedTokens tripletTemplate req g = Some (bar, g')
    /\ barUnits bar = UNITS_PER_BAR
    /\ Permutation bar ((req ++ added) ++ repeat smallest padding)
    /\ Forall (fun t => In t (poolOf cfg allowedTokens tripletTemplate)) added.
Proof.
  exact (fillBar_required_fit cfg allowedTokens tripletTemplate req g).
Qed.

Lemma trimOverfill_within (left : nat) :
  forall (tokens : list Token) (used : Z),
    used = barUnits tokens -> (List.length tokens <= left)%nat ->
    snd (trimOverfill left tokens used) <= UNITS_PER_BAR.
Proof.
  induction left as [|left IH]; intros tokens used Hused Hlen.
  - destruct tokens; [|simpl in Hlen; lia]. subst used. simpl. discriminate.
  - cbn [trimOverfill]. destruct (used >? UNITS_PER_BAR) eqn:Hover.
    + pose proof (Array_pop_spec tokens) as Hpop.
      destruct (Array_pop tokens) as [[t tokens']|].
      * apply IH.
        -- subst tokens. rewrite barUnits_app in Hused. simpl in Hused. lia.
        -- subst tokens. rewrite length_app in Hlen. simpl in Hlen. lia.
      * subst tokens used. simpl. discriminate.
    + cbn [snd]. rewrite Z.gtb_ltb in Hover. apply Z.ltb_ge in Hover. exact Hover.
Qed.

Lemma trimOverfill_keeps_first (left : nat) :
  forall (h : Token) (rest : list Token) (used : Z),
    used = barUnits (h :: rest) -> units h <= UNITS_PER_BAR ->
    exists rest', fst (trimOverfill left (h :: rest) used) = h :: rest'.
Proof.
  induction left as [|left IH]; intros h rest used Hused Hh.
  - exists rest. reflexivity.
  - cbn [trimOverfill]. destruct (used >? UNITS_PER_BAR) eqn:Hover.
    + pose proof (Array_pop_spec (h :: rest)) as Hpop.
      destruct (Array_pop (h :: rest)) as [[t tokens']|]; [|discriminate].
      destruct tokens' as [|h' rest'].
      * simpl in Hpop. injection Hpop as -> ->.
        simpl in Hused. rewrite Z.gtb_ltb in Hover. apply Z.ltb_lt in Hover. lia.
      * simpl in Hpop. injection Hpop as <- Hrest.
        apply IH; [|exact Hh].
        subst rest. simpl in Hused. rewrite barUnits_app in Hused.
        simpl in Hused. simpl. lia.
    + exists rest. reflexivity.
Qed.

Lemma units_le_barUnits (bar : Bar) (t : Token) :
  Forall (fun t => 0 <= units t) bar -> In t bar -> units t <= barUnits bar.
Proof.
  induction bar as [|x bar IH]; intros Hall Hin; [contradiction|].
  inversion Hall as [|? ? Hx Hbar]; subst.
  assert (0 <= barUnits bar) as Hnonneg.
  { clear IH Hin Hall. induction Hbar as [|y l Hy Hl IHl]; simpl; lia. }
  simpl. destruct Hin as [<-|Hin]; [lia|].
  specialize (IH Hbar Hin). lia.
Qed.

(** The bar that [fillBar] returns for at most 50 required tokens of 1 to 32
    units each is not empty, sums to 32 units at most, and holds no token of
    more than 32 units. *)
Lemma fillBar_bounds (cfg : LevelCfg) (allowedTokens : list Token)
    (tripletTemplate : Token) (req : list Token) (g : RNG) :
  poolOf cfg allowedTokens tripletTemplate <> [] ->
  Forall (fun t => 1 <= units t) (poolOf cfg allowedTokens tripletTemplate) ->
  Forall (fun t => 1 <= units t <= UNITS_PER_BAR) req ->
  (List.length req <= 50)%nat ->
  exists bar g',
    fillBar cfg allowedTokens tripletTemplate req g = Some (bar, g')
    /\ bar <> []
    /\ 1 <= barUnits bar <= UNITS_PER_BAR
    /\ Forall (fun t => 1 <= units t <= UNITS_PER_BAR) bar.
Proof.
  intros Hne Hpool Hreq Hlen.
  assert (forall bar : Bar,
             Forall (fun t => 1 <= units t) bar -> bar <> [] ->
             barUnits bar <= UNITS_PER_BAR ->
             1 <= barUnits bar <= UNITS_PER_BAR
             /\ Forall (fun t => 1 <= units t <= UNITS_PER_BAR) bar) as Hsum.
  { intros bar Hpos Hnonempty Hle.
    assert (Forall (fun t => 0 <= units t) bar) as Hnonneg
      by (eapply Forall_impl; [|exact Hpos]; simpl; intros; lia).
    split.
    - destruct bar as [|t bar]; [contradiction|].
      inversion Hpos; subst.
      pose proof (units_le_barUnits (t :: bar) t Hnonneg (or_introl eq_refl)). lia.
    - apply Forall_forall. intros t Ht.
      rewrite Forall_forall in Hpos. specialize (Hpos t Ht).
      pose proof (units_le_barUnits bar t Hnonneg Ht). lia. }
  destruct (Z_le_gt_dec (barUnits req) UNITS_PER_BAR) as [Hfit|Hover].
  - destruct (fillBar_validated_full cfg allowedTokens tripletTemplate req g Hne)
      as [added [padding [popped [kept [used [g' [Hval [_ [Hused [Hall
          [Htrim [Hpad [Hle _]]]]]]]]]]]]].
    specialize (Hle Hfit).
    rewrite trimOverfill_at_capacity in Htrim by lia.
    injection Htrim as Hkept Hused'.
    destruct (fillBar_perm _ _ _ _ _ _ _ _ Hval) as [bar [g'' [Hfill Hperm]]].
    exists bar, g''. split; [exact Hfill|].
    assert (barUnits bar = UNITS_PER_BAR) as Hbar
      by (rewrite (barUnits_perm _ _ Hperm), <- Hused, Hused'; lia).
    assert (bar <> []) as Hnonempty.
    { intros ->. simpl in Hbar. discriminate. }
    split; [exact Hnonempty|].
    apply Hsum; [|exact Hnonempty|lia].
    apply Forall_forall. intros t Ht.
    apply (Permutation_in _ Hperm) in Ht. rewrite Hkept in Ht.
    apply in_app_or in Ht. destruct Ht as [Ht|Ht]; [apply in_app_or in Ht;
                                                    destruct Ht as [Ht|Ht]|].
    + rewrite Forall_forall in Hreq. specialize (Hreq t Ht). lia.
    + rewrite Forall_forall in Hall, Hpool. apply Hpool, Hall, Ht.
    + apply repeat_spec in Ht. subst t. simpl. lia.
  - destruct (fillBar_overfull cfg allowedTokens tripletTemplate req g Hne)
      as [bar [g' [Hfill Hperm]]]; [lia|].
    destruct (trimOverfill_spec 50 req (barUnits req)) as [popped [Hkept Hused]].
    pose proof (trimOverfill_within 50 req (barUnits req) eq_refl Hlen) as Hle.
    destruct req as [|h rest]; [simpl in Hover; discriminate|].
    inversion Hreq as [|? ? Hh Hrest]; subst.
    destruct (trimOverfill_keeps_first 50 h rest (barUnits (h :: rest)) eq_refl)
      as [rest' Hfirst]; [lia|].
    destruct (trimOverfill 50 (h :: rest) (barUnits (h :: rest))) as [kept used].
    cbn [fst snd] in *. subst kept.
    assert (barUnits (h :: rest') = used) as Hsame.
    { rewrite Hkept, barUnits_app in Hused. lia. }
    exists bar, g'. split; [exact Hfill|].
    assert (bar <> []) as Hnonempty.
    { intros ->. apply Permutation_nil in Hperm. discriminate. }
    split; [exact Hnonempty|].
    apply Hsum; [|exact Hnonempty|rewrite (barUnits_perm _ _ Hperm); lia].
    apply Forall_forall. intros t Ht.
    apply (Permutation_in _ Hperm) in Ht.
    assert (In t (h :: rest)) as Hin
      by (rewrite Hkept; apply in_or_app; left; exact Ht).
    rewrite Forall_forall in Hreq. specialize (Hreq t Hin). lia.
Qed.

Lemma resolveRequired_units (levelKey : LevelKey) (g : RNG) :
  exists req g',
    resolveRequired (LEVELS levelKey) (tripletGroup TYPES_quaver) g = Some (req, g')
    /\ Forall (fun t => 1 <= units t <= UNITS_PER_BAR) req
    /\ (List.length req <= 7)%nat.
Proof.
  destruct levelKey.
  - eexists. exists g. split; [reflexivity|].
    split; [repeat constructor; discriminate | simpl; lia].
  - eexists. exists g. split; [reflexivity|].
    split; [repeat constructor; discriminate | simpl; lia].
  - destruct (resolveRequired_difficult (tripletGroup TYPES_quaver) g)
      as [req [g' [Hrun [Hlen [_ Hbase]]]]].
    exists req, g'. split; [exact Hrun|]. split; [|lia].
    apply Forall_forall. intros t Ht. apply Hbase in Ht. simpl in Ht.
    repeat (destruct Ht as [<-|Ht]; [split; discriminate|]). contradiction.
Qed.

Lemma levelPool_units (levelKey : LevelKey) :
  Forall (fun t => 1 <= units t) (levelPool levelKey).
Proof.
  destruct levelKey; repeat constructor; discriminate.
Qed.

Lemma generateForLevel_bounds (levelKey : LevelKey) (g : RNG) :
  exists bar0 bar1 g',
    generateForLevel levelKey g = Some (mkRhythm [bar0; bar1], g')
    /\ Forall (fun bar => bar <> []
                          /\ 1 <= barUnits bar <= UNITS_PER_BAR
                          /\ Forall (fun t => 1 <= units t <= UNITS_PER_BAR) bar)
              [bar0; bar1].
Proof.
  destruct (allowedOf_levelPool levelKey) as [allowedTokens [Hallowed [Hpool Hne]]].
  destruct (resolveRequired_units levelKey g) as [req [g1 [Hreq [Hunits Hlen]]]].
  destruct (distribute_split req [] [] g1) as [r0 [r1 [g2 [Hdist [H0 [H1 _]]]]]].
  simpl in Hdist.
  pose proof (levelPool_units levelKey) as Hpos.
  rewrite <- Hpool in Hne, Hpos.
  assert (forall r, In r (sublists req) ->
                    Forall (fun t => 1 <= units t <= UNITS_PER_BAR) r
                    /\ (List.length r <= 50)%nat) as Hsub.
  { intros r Hr. split.
    - eapply incl_Forall; [apply sublists_incl; exact Hr | exact Hunits].
    - pose proof (sublists_length req r Hr). lia. }
  destruct (Hsub r0 H0) as [Hu0 Hl0]. destruct (Hsub r1 H1) as [Hu1 Hl1].
  destruct (fillBar_bounds (LEVELS levelKey) allowedTokens (tripletGroup TYPES_quaver)
              r0 g2 Hne Hpos Hu0 Hl0) as [bar0 [g3 [Hfill0 Hb0]]].
  destruct (fillBar_bounds (LEVELS levelKey) allowedTokens (tripletGroup TYPES_quaver)
              r1 g3 Hne Hpos Hu1 Hl1) as [bar1 [g4 [Hfill1 Hb1]]].
  exists bar0, bar1, g4. split.
  - exact (generateForLevel_steps levelKey _ _ _ _ _ _ _ _ _ _ _
             Hallowed Hreq Hdist Hfill0 Hfill1).
  - repeat constructor; tauto.
Qed.

(** X4.  For every level and whatever the random source yields, each of the
    two bars that [generateForLevel] returns has at least one token, sums to
    between 1 and 32 units (it is never overfilled), and holds no token of
    more than 32 units. *)
Theorem generateForLevel_bars_bounded (levelKey : LevelKey) (g : RNG) :
  exists bar0 bar1 g',
    generateForLevel levelKey g = Some (mkRhythm [bar0; bar1], g')
    /\ Forall (fun bar => bar <> []
                          /\ 1 <= barUnits bar <= UNITS_PER_BAR
                          /\ Forall (fun t => 1 <= units t <= UNITS_PER_BAR) bar)
              [bar0; bar1].
Proof.
  exact (generateForLevel_bounds levelKey g).
Qed.

Lemma easy_sublists_trim :
  Forall (fun r => barUnits r <= UNITS_PER_BAR
                   \/ trimOverfill 50 r (barUnits r) = ([TYPES_semibreve], 32))
         (sublists easyTokens).
Proof.
  repeat (constructor; [first [left; discriminate | right; reflexivity]|]).
  constructor.
Qed.

(** X5.  For the easy level every generated bar sums to exactly 32 units,
    whatever the random source yields: when the required tokens overfill a
    bar they include the semibreve as their first token, and the trimming
    loop pops back to it. *)
Theorem generateForLevel_easy_exact (g : RNG) :
  exists bar0 bar1 g',
    generateForLevel easy g = Some (mkRhythm [bar0; bar1], g')
    /\ barUnits bar0 = UNITS_PER_BAR /\ barUnits bar1 = UNITS_PER_BAR.
Proof.
  assert (allowedOf (LEVELS easy) = Some easyTokens) as Hallowed by reflexivity.
  assert (resolveRequired (LEVELS easy) (tripletGroup TYPES_quaver) g
          = Some (easyTokens, g)) as Hreq by reflexivity.
  destruct (distribute_split easyTokens [] [] g) as [r0 [r1 [g2 [Hdist [H0 [H1 _]]]]]].
  simpl app in Hdist.
  assert (poolOf (LEVELS easy) easyTokens (tripletGroup TYPES_quaver) <> [])
    as Hne by discriminate.
  assert (forall r g, In r (sublists easyTokens) ->
            exists bar g',
              fillBar (LEVELS easy) easyTokens (tripletGroup TYPES_quaver) r g
                = Some (bar, g')
              /\ barUnits bar = UNITS_PER_BAR) as Hbar.
  { intros r g0 Hr.
    pose proof easy_sublists_trim as Htrim.
    rewrite Forall_forall in Htrim. destruct (Htrim r Hr) as [Hfit|Hover].
    - destruct (fillBar_required_fit (LEVELS easy) easyTokens
                  (tripletGroup TYPES_quaver) r g0 Hne Hfit)
        as [bar [g' [_ [_ [Hfill [Hsum _]]]]]].
      exists bar, g'. split; assumption.
    - destruct (Z_le_gt_dec UNITS_PER_BAR (barUnits r)) as [Hfull|Hshort].
      + destruct (fillBar_overfull (LEVELS easy) easyTokens
                    (tripletGroup TYPES_quaver) r g0 Hne Hfull)
          as [bar [g' [Hfill Hperm]]].
        exists bar, g'. split; [exact Hfill|].
        rewrite Hover in Hperm. rewrite (barUnits_perm _ _ Hperm). reflexivity.
      + rewrite trimOverfill_at_capacity in Hover by lia.
        injection Hover as -> _. simpl in Hshort. discriminate. }
  destruct (Hbar r0 g2 H0) as [bar0 [g3 [Hfill0 Hsum0]]].
  destruct (Hbar r1 g3 H1) as [bar1 [g4 [Hfill1 Hsum1]]].
  exists bar0, bar1, g4. split; [|split; assumption].
  exact (generateForLevel_steps easy _ _ _ _ _ _ _ _ _ _ _
           Hallowed Hreq Hdist Hfill0 Hfill1).
Qed.

(** X6.  For the difficult level every token of a generated rhythm is one of
    the six base types of [TYPES]: no dotted token and no triplet group
    appears, whatever the random source yields. *)
Theorem generateForLevel_difficult_base_types (g : RNG) :
  exists bar0 bar1 g',
    generateForLevel difficult g = Some (mkRhythm [bar0; bar1], g')
    /\ Forall (fun t => In t baseTokens
                        /\ isDotted t = false /\ isTriplet t = false)
              (bar0 ++ bar1).
Proof.
  destruct (generateForLevel_spec difficult g) as [bar0 [bar1 [g' [Hgen [H0 H1]]]]].
  exists bar0, bar1, g'. split; [exact Hgen|].
  apply Forall_app. split; (eapply Forall_impl; [|eassumption]);
    intros t Ht;
    (assert (In t baseTokens) as Hin
       by (destruct Ht as [Ht| ->]; [exact Ht | simpl; tauto]));
    (split; [exact Hin|]);
    simpl in Hin;
    repeat (destruct Hin as [<-|Hin]; [split; reflexivity|]); contradiction.
Qed.

(* ------------------------------------------------------------------ *)
(** ** Further properties of the options *)

Lemma Set_has_true (seen : list string) (key : string) :
  Set_has seen key = true -> In key seen.
Proof.
  unfold Set_has. intros H. apply existsb_exists in H.
  destruct H as [k [Hin Heq]]. apply String.eqb_eq in Heq. subst k. exact Hin.
Qed.

Lemma generateMany_step (levelKey : LevelKey) (n : nat) (g g1 g2 : RNG)
    (r : Rhythm) (more : list Bars) :
  generateForLevel levelKey g = Some (r, g1) ->
  generateMany levelKey n g1 = Some (more, g2) ->
  generateMany levelKey (S n) g = Some (bars r :: more, g2).
Proof.
  intros Hgen Hmore. cbn [generateMany].
  rewrite (bind_Some _ _ _ _ _ Hgen), (bind_Some _ _ _ _ _ Hmore). reflexivity.
Qed.

(** The collecting loop: what it keeps was generated for the level; [seen]
    only grows and holds the keys of the options kept; and when it ends with
    fewer than four options it has generated as many rhythms as it had
    attempts, each with a key already seen. *)
Lemma collectOptions_full (levelKey : LevelKey) (left : nat) :
  forall (options : list Bars) (seen : list string) (g : RNG),
  exists added seen' g',
    collectOptions levelKey left options seen g
      = Some ((options ++ added, seen'), g')
    /\ incl seen seen'
    /\ ((forall k, In k seen <-> In k (map barsKey options)) ->
        forall k, In k seen' <-> In k (map barsKey (options ++ added)))
    /\ (forall P : Bars -> Prop,
          (forall g0 r g1, generateForLevel levelKey g0 = Some (r, g1) -> P (bars r)) ->
          Forall P added)
    /\ ((List.length (options ++ added) < 4)%nat ->
        exists candidates,
          generateMany levelKey left g = Some (candidates, g')
          /\ Forall (fun c => In (barsKey c) seen') candidates).
Proof.
  induction left as [|left IH]; intros options seen g.
  - exists [], seen, g. simpl. rewrite app_nil_r.
    split; [reflexivity|]. split; [apply incl_refl|]. split; [auto|].
    split; [intros; constructor|]. intros _. exists []. split; [reflexivity|constructor].
  - cbn [collectOptions]. destruct (List.length options <? 4)%nat eqn:Hlen.
    + destruct (generateForLevel_spec levelKey g) as [bar0 [bar1 [g1 [Hgen _]]]].
      rewrite (bind_Some _ _ _ _ _ Hgen). cbn [bars].
      destruct (Set_has seen (barsKey [bar0; bar1])) eqn:Hseen.
      * destruct (IH options seen g1) as [added [seen' [g' [Hrun [Hincl [Hkeys [HP Hbudget]]]]]]].
        exists added, seen', g'.
        split; [exact Hrun|]. split; [exact Hincl|]. split; [exact Hkeys|].
        split; [exact HP|]. intros Hshort.
        destruct (Hbudget Hshort) as [candidates [Hmany Hall]].
        exists ([bar0; bar1] :: candidates). split.
        -- exact (generateMany_step levelKey left g g1 g' _ _ Hgen Hmany).
        -- constructor; [|exact Hall]. apply Hincl. apply Set_has_true. exact Hseen.
      * destruct (IH (options ++ [[bar0; bar1]]) (barsKey [bar0; bar1] :: seen) g1)
          as [added [seen' [g' [Hrun [Hincl [Hkeys [HP Hbudget]]]]]]].
        exists ([bar0; bar1] :: added), seen', g'.
        rewrite <- app_assoc in Hrun, Hkeys, Hbudget. simpl in Hrun, Hkeys, Hbudget.
        split; [exact Hrun|].
        split; [intros k Hk; apply Hincl; right; exact Hk|].
        split.
        { intros Hsame. apply Hkeys. intros k.
          rewrite map_app, in_app_iff. simpl. rewrite Hsame. tauto. }
        split.
        { intros P Hgenerated. constructor; [|apply HP; exact Hgenerated].
          exact (Hgenerated g _ g1 Hgen). }
        intros Hshort. destruct (Hbudget Hshort) as [candidates [Hmany Hall]].
        exists ([bar0; bar1] :: candidates). split.
        -- exact (generateMany_step levelKey left g g1 g' _ _ Hgen Hmany).
        -- constructor; [|exact Hall]. apply Hincl. left. reflexivity.
    + exists [], seen, g. unfold ret. rewrite app_nil_r.
      split; [reflexivity|]. split; [apply incl_refl|]. split; [auto|].
      split; [intros; constructor|].
      intros Hshort. apply Nat.ltb_ge in Hlen. lia.
Qed.

(** X7.  The copies of the correct rhythm are a last resort: when the
    collecting loop of [generateOptions] ends with fewer than four options,
    it has generated 200 rhythms, and every one of them had the key of the
    correct rhythm or of a rhythm already kept. *)
Theorem padding_only_after_budget
    (correctBars : Bars) (levelKey : LevelKey) (g g1 : RNG)
    (collected : list Bars) (seen : list string) :
  collectOptions levelKey 200 [correctBars] [barsKey correctBars] g
    = Some ((collected, seen), g1) ->
  (List.length collected < 4)%nat ->
  exists candidates,
    generateMany levelKey 200 g = Some (candidates, g1)
    /\ List.length candidates = 200%nat
    /\ Forall (fun c => In (barsKey c) (map barsKey collected)) candidates.
Proof.
  intros Hcollect Hshort.
  destruct (collectOptions_full levelKey 200 [correctBars] [barsKey correctBars] g)
    as [added [seen' [g' [Hrun [_ [Hkeys [_ Hbudget]]]]]]].
  assert (collected = [correctBars] ++ added /\ seen = seen' /\ g1 = g')
    as [Hc [Hs Hg]] by (split; [|split]; congruence).
  subst collected seen' g'.
  destruct (Hbudget Hshort) as [candidates [Hmany Hall]].
  exists candidates. split; [exact Hmany|]. split.
  - clear - Hmany. revert g g1 candidates Hmany.
    generalize 200%nat as n. induction n as [|n IH]; intros g g1 candidates Hmany.
    + injection Hmany as <- _. reflexivity.
    + cbn [generateMany] in Hmany.
      apply bind_inv in Hmany. destruct Hmany as [r [g2 [_ Hmany]]].
      apply bind_inv in Hmany. destruct Hmany as [more [g3 [Hmore Hret]]].
      injection Hret as <- _. simpl. f_equal. exact (IH _ _ _ Hmore).
  - eapply Forall_impl; [|exact Hall]. intros c Hc. cbv beta in Hc.
    apply Hkeys; [|exact Hc]. intros k. simpl. tauto.
Qed.

(** The result of [generateOptions]: the options collected and padded, in
    the order left by the sort, with the position of the correct rhythm. *)
Lemma generateOptions_result (correctBars : Bars) (levelKey : LevelKey) (g : RNG) :
  exists found seen g1 (order : list (Bars * Z)) g2 n,
    collectOptions levelKey 200 [correctBars] [barsKey correctBars] g
      = Some ((correctBars :: found, seen), g1)
    /\ generateOptions correctBars levelKey g
       = Some (mkOptionSet (map fst order) (Z.of_nat n), g2)
    /\ Permutation (map fst order) (padOptions correctBars (correctBars :: found))
    /\ nth_error (map fst order) n = Some correctBars
    /\ (n < 4)%nat
    /\ List.length (map fst order) = 4%nat
    /\ (forall P : Bars -> Prop,
          (forall g0 r g1, generateForLevel levelKey g0 = Some (r, g1) -> P (bars r)) ->
          Forall P found).
Proof.
  destruct (collectOptions_full levelKey 200 [correctBars] [barsKey correctBars] g)
    as [found [seen [g1 [Hcollect [_ [_ [HP _]]]]]]].
  destruct (collectOptions_spec levelKey 200 [correctBars] [barsKey correctBars] g)
    as [found' [seen'' [g1'' [Hcollect' [Hle _]]]]].
  simpl app in Hcollect, Hcollect'.
  assert (found' = found) as -> by congruence.
  clear Hcollect'.
  assert (List.length found <= 3)%nat as Hfound.
  { assert (List.length ([correctBars] ++ found) <= 4)%nat as Hle'
      by (apply Hle; simpl; lia).
    simpl in Hle'. lia. }
  set (padded := padOptions correctBars (correctBars :: found)).
  assert (padded = correctBars :: found
                     ++ repeat (cloneBars correctBars) (3 - List.length found))
    as Hpadded by (unfold padded; rewrite padOptions_spec; reflexivity).
  pose proof (sort_random_perm _ (Array_mapi_from (fun o i => (o, i)) 0 padded) g1)
    as Hperm.
  destruct (sort_random (Array_mapi_from (fun o i => (o, i)) 0 padded) g1)
    as [order g2] eqn:Hsort.
  cbn [fst] in Hperm.
  pose proof (generateOptions_steps _ _ _ _ _ _ _ _ Hcollect Hsort) as Hsteps.
  assert (Permutation (map fst order) padded) as Hshuffled.
  { eapply Permutation_trans; [apply Permutation_map; exact Hperm|].
    rewrite Array_mapi_from_fst. apply Permutation_refl. }
  assert (In (correctBars, 0) order) as Hin.
  { eapply Permutation_in; [apply Permutation_sym; exact Hperm|].
    rewrite Hpadded. simpl. left. reflexivity. }
  destruct (Array_findIndex_from_spec (fun x : Bars * Z => snd x =? 0) order 0)
    as [n [y [Hidx [Hnth Hy]]]].
  { exists (correctBars, 0). split; [exact Hin | reflexivity]. }
  assert (y = (correctBars, 0)) as ->.
  { apply nth_error_In in Hnth.
    apply (Permutation_in _ Hperm) in Hnth.
    rewrite Hpadded in Hnth. simpl in Hnth.
    destruct Hnth as [<-|Htail]; [reflexivity|].
    apply Array_mapi_from_snd in Htail.
    apply Z.eqb_eq in Hy. lia. }
  assert (List.length (map fst order) = 4%nat) as Hlen.
  { rewrite (Permutation_length Hshuffled), Hpadded. cbn [List.length].
    rewrite length_app, repeat_length. lia. }
  exists found, seen, g1, order, g2, n.
  split; [exact Hcollect|].
  split.
  { rewrite Hsteps. unfold Array_findIndex. rewrite Hidx. reflexivity. }
  split; [exact Hshuffled|].
  split; [rewrite (nth_error_map fst), Hnth; reflexivity|].
  split.
  { rewrite <- Hlen, length_map. apply nth_error_Some. rewrite Hnth. discriminate. }
  split; [exact Hlen | exact HP].
Qed.

(** X8.  When the collecting loop of [generateOptions] ends with four
    options, the answer is unambiguous: [correctIndex] is the only position
    whose option has the canonical key of the correct rhythm. *)
Theorem correctIndex_unambiguous_within_budget
    (correctBars : Bars) (levelKey : LevelKey) (g g1 g2 : RNG)
    (collected : list Bars) (seen : list string) (res : OptionSet) :
  collectOptions levelKey 200 [correctBars] [barsKey correctBars] g
    = Some ((collected, seen), g1) ->
  List.length collected = 4%nat ->
  generateOptions correctBars levelKey g = Some (res, g2) ->
  forall (j : nat) (o : Bars),
    nth_error (options res) j = Some o ->
    barsKey o = barsKey correctBars ->
    Z.of_nat j = correctIndex res.
Proof.
  intros Hcollect Hfour Hgen j o Hj Hkey.
  destruct (generateOptions_result correctBars levelKey g)
    as [found [seen' [g1' [order [g2' [n [Hcollect' [Hgen' [Hperm [Hn [_ [_ _]]]]]]]]]]]].
  assert (collected = correctBars :: found) as Hc by congruence.
  assert (res = mkOptionSet (map fst order) (Z.of_nat n)) as -> by congruence.
  cbn [options correctIndex] in *.
  destruct (collectOptions_spec levelKey 200 [correctBars] [barsKey correctBars] g)
    as [found' [seen'' [g1'' [Hrun [_ Hdup]]]]].
  cbn [app] in Hrun.
  assert (found' = found) as -> by congruence.
  assert (NoDup (map barsKey (correctBars :: found))) as Hnodup.
  { apply Hdup.
    - intros k. simpl. tauto.
    - simpl. constructor; [intros []| constructor]. }
  assert (padOptions correctBars (correctBars :: found) = correctBars :: found) as Hpad.
  { rewrite padOptions_spec, <- Hc, Hfour. apply app_nil_r. }
  rewrite Hpad in Hperm.
  assert (NoDup (map barsKey (map fst order))) as Hkeys.
  { eapply Permutation_NoDup; [|exact Hnodup].
    apply Permutation_sym. apply Permutation_map. exact Hperm. }
  f_equal.
  assert (j < List.length (map barsKey (map fst order)))%nat as Hjlen.
  { rewrite length_map. apply nth_error_Some. rewrite Hj. discriminate. }
  apply (proj1 (NoDup_nth_error _) Hkeys j n Hjlen).
  rewrite !(nth_error_map barsKey), Hj, Hn. simpl. rewrite Hkey. reflexivity.
Qed.

Lemma generateForLevel_rhythm (levelKey : LevelKey) (g g' : RNG) (r : Rhythm) :
  generateForLevel levelKey g = Some (r, g') -> is_rhythm (bars r) = true.
Proof.
  intros Hgen.
  destruct (generateForLevel_is_rhythm levelKey g) as [r' [g'' [Hgen' Hr]]].
  assert (r = r') as -> by congruence. exact Hr.
Qed.

(** X9.  [newQuestion] never throws.  It leaves three tries, hands four
    options to the cards, every one a rhythm of two bars of catalog tokens,
    and the rhythm that the play button will play is the rhythm generated
    for the question, which sits among the options at
    [currentCorrectIndex]. *)
Theorem newQuestion_sets_a_question (level : LevelKey) (g : RNG) :
  exists quiz opts g' gen g1,
    newQuestion level g = Some ((quiz, opts), g')
    /\ generateForLevel level g = Some (gen, g1)
    /\ attemptsRemaining quiz = 3
    /\ List.length opts = 4%nat
    /\ 0 <= currentCorrectIndex quiz <= 3
    /\ currentRhythm quiz = Some (bars gen)
    /\ Array_get opts (currentCorrectIndex quiz) = Some (bars gen)
    /\ Forall (fun o => is_rhythm o = true) opts.
Proof.
  destruct (generateForLevel_is_rhythm level g) as [gen [g1 [Hgen Hrhythm]]].
  destruct (generateOptions_result (bars gen) level g1)
    as [found [seen [g2 [order [g3 [n [_ [Hopts [Hperm [Hn [Hlt [Hlen HP]]]]]]]]]]]].
  assert (Array_get (map fst order) (Z.of_nat n) = Some (bars gen)) as Hget.
  { unfold Array_get.
    assert ((Z.of_nat n <? 0) = false) as -> by (apply Z.ltb_ge; lia).
    rewrite Nat2Z.id. exact Hn. }
  exists (mkQuiz (Z.of_nat n) 3 (Some (bars gen))), (map fst order), g3, gen, g1.
  split.
  { unfold newQuestion. rewrite (bind_Some _ _ _ _ _ Hgen).
    rewrite (bind_Some _ _ _ _ _ Hopts). unfold ret.
    cbn [options correctIndex]. rewrite Hget. reflexivity. }
  split; [exact Hgen|]. split; [reflexivity|]. split; [exact Hlen|].
  split; [cbn [currentCorrectIndex]; lia|].
  split; [reflexivity|]. split; [exact Hget|].
  apply Forall_forall. intros o Ho.
  apply (Permutation_in _ Hperm) in Ho.
  rewrite padOptions_spec in Ho.
  apply in_app_or in Ho. destruct Ho as [[<-|Ho]|Ho].
  - exact Hrhythm.
  - specialize (HP (fun b => is_rhythm b = true)
                   (fun g0 r g4 H => generateForLevel_rhythm level g0 g4 r H)).
    rewrite Forall_forall in HP. exact (HP o Ho).
  - apply repeat_spec in Ho. subst o. rewrite cloneBars_same. exact Hrhythm.
Qed.

End MoreGenerationFacts.

Lemma fillBar_exact_when_required_fit_witness :
  poolOf (LEVELS easy) easyTokens (tripletGroup TYPES_quaver) <> []
  /\ barUnits [TYPES_minim; TYPES_quaver] <= UNITS_PER_BAR
  /\ exists bar g' added padding,
       @fillBar Reference.runtime (LEVELS easy) easyTokens (tripletGroup TYPES_quaver)
                [TYPES_minim; TYPES_quaver] (mkState [] 4242) = Some (bar, g')
       /\ barUnits bar = UNITS_PER_BAR
       /\ Permutation bar (([TYPES_minim; TYPES_quaver] ++ added)
                             ++ repeat smallest padding)
       /\ Forall (fun t => In t (poolOf (LEVELS easy) easyTokens
                                        (tripletGroup TYPES_quaver))) added.
Proof.
  assert (poolOf (LEVELS easy) easyTokens (tripletGroup TYPES_quaver) <> [])
    as Hne by discriminate.
  assert (barUnits [TYPES_minim; TYPES_quaver] <= UNITS_PER_BAR) as Hfit
    by discriminate.
  split; [exact Hne|]. split; [exact Hfit|].
  exact (fillBar_exact_when_required_fit (LEVELS easy) easyTokens
           (tripletGroup TYPES_quaver) [TYPES_minim; TYPES_quaver]
           (mkState [] 4242) Hne Hfit).
Defined.

Lemma padding_only_after_budget_witness :
  exists collected seen s1,
    collectOptions easy 200 [[[TYPES_semibreve]; [TYPES_semibreve]]]
                   [barsKey [[TYPES_semibreve]; [TYPES_semibreve]]] (mkState [] 0)
      = Some ((collected, seen), s1)
    /\ (List.length collected < 4)%nat
    /\ exists candidates,
         generateMany easy 200 (mkState [] 0) = Some (candidates, s1)
         /\ List.length candidates = 200%nat
         /\ Forall (fun c => In (barsKey c) (map barsKey collected)) candidates.
Proof.
  eexists. eexists. eexists.
  assert (forall (A B : Prop), A -> (A -> B) -> A /\ B) as Hand by tauto.
  apply Hand; [vm_compute; reflexivity | intros Hcollect].
  apply Hand; [simpl; lia | intros Hshort].
  exact (padding_only_after_budget _ _ _ _ _ _ Hcollect Hshort).
Defined.

Lemma correctIndex_unambiguous_within_budget_witness :
  exists correctBars collected seen s1 res s2,
    run (generateForLevel medium) (mkState [] 12345) = Some (mkRhythm correctBars)
    /\ collectOptions medium 200 [correctBars] [barsKey correctBars] (mkState [] 777)
       = Some ((collected, seen), s1)
    /\ List.length collected = 4%nat
    /\ generateOptions correctBars medium (mkState [] 777) = Some (res, s2)
    /\ forall (j : nat) (o : Bars),
         nth_error (options res) j = Some o ->
         barsKey o = barsKey correctBars ->
         Z.of_nat j = correctIndex res.
Proof.
  eexists. eexists. eexists. eexists. eexists. eexists.
  split; [vm_compute; reflexivity|].
  assert (forall (A B : Prop), A -> (A -> B) -> A /\ B) as Hand by tauto.
  apply Hand; [vm_compute; reflexivity | intros Hcollect].
  apply Hand; [reflexivity | intros Hfour].
  apply Hand; [vm_compute; reflexivity | intros Hgen].
  exact (correctIndex_unambiguous_within_budget _ _ _ _ _ _ _ _ Hcollect Hfour Hgen).
Defined.

(* ================================================================== *)
(** * Properties of the quiz *)
(* ================================================================== *)

Lemma optionCardClick_over (idx : Z) (q : Quiz) :
  attemptsRemaining q <= 0 -> optionCardClick idx q = (q, []).
Proof.
  intros Hover. unfold optionCardClick.
  assert ((attemptsRemaining q <=? 0) = true) as -> by (apply Z.leb_le; exact Hover).
  reflexivity.
Qed.

Lemma clicks_over (idxs : list Z) (q : Quiz) :
  attemptsRemaining q <= 0 -> clicks idxs q = (q, []).
Proof.
  intros Hover. induction idxs as [|idx rest IH]; [reflexivity|].
  cbn [clicks]. rewrite (optionCardClick_over idx q Hover), IH. reflexivity.
Qed.

(** What one click does to the tries and to the effects, case by case. *)
Lemma optionCardClick_cases (idx : Z) (q : Quiz) :
  0 < attemptsRemaining q ->
  let q' := fst (optionCardClick idx q) in
  let effects := snd (optionCardClick idx q) in
  currentCorrectIndex q' = currentCorrectIndex q
  /\ currentRhythm q' = currentRhythm q
  /\ ((idx = currentCorrectIndex q /\ attemptsRemaining q' = 0
       /\ effects = [Toast "Correct!" true; ScheduleNewQuestion 600])
      \/ (idx <> currentCorrectIndex q /\ 1 < attemptsRemaining q
          /\ attemptsRemaining q' = attemptsRemaining q - 1
          /\ exists text, effects = [Toast text false])
      \/ (idx <> currentCorrectIndex q /\ attemptsRemaining q = 1
          /\ attemptsRemaining q' = 0
          /\ exists text, effects = [Toast text false; ScheduleNewQuestion 900])).
Proof.
  intros Hleft. unfold optionCardClick.
  assert ((attemptsRemaining q <=? 0) = false) as -> by (apply Z.leb_gt; exact Hleft).
  destruct (currentCorrectIndex q =? idx) eqn:Hidx.
  - apply Z.eqb_eq in Hidx. cbn. repeat split; auto.
  - apply Z.eqb_neq in Hidx.
    destruct (attemptsRemaining q - 1 >? 0) eqn:Hmore; cbn.
    + rewrite Z.gtb_ltb in Hmore. apply Z.ltb_lt in Hmore.
      split; [reflexivity|]. split; [reflexivity|]. right. left.
      repeat split; [congruence | lia | eexists; reflexivity].
    + rewrite Z.gtb_ltb in Hmore. apply Z.ltb_ge in Hmore.
      split; [reflexivity|]. split; [reflexivity|]. right. right.
      repeat split; [congruence | lia | lia | eexists; reflexivity].
Qed.

(** X10.  Whatever cards are clicked, the tries left never go up and never
    below zero, and the clicks change neither the index of the correct option
    nor the rhythm of the question. *)
Theorem clicks_keep_attempts_in_range (idxs : list Z) (q : Quiz) :
  0 <= attemptsRemaining q ->
  0 <= attemptsRemaining (fst (clicks idxs q)) <= attemptsRemaining q
  /\ currentCorrectIndex (fst (clicks idxs q)) = currentCorrectIndex q
  /\ currentRhythm (fst (clicks idxs q)) = currentRhythm q.
Proof.
  revert q. induction idxs as [|idx rest IH]; intros q Hq.
  - simpl. repeat split; lia.
  - cbn [clicks].
    destruct (Z_le_gt_dec (attemptsRemaining q) 0) as [Hover|Hleft].
    + rewrite (optionCardClick_over idx q Hover).
      specialize (IH q Hq). destruct (clicks rest q) as [q2 e2]. exact IH.
    + pose proof (optionCardClick_cases idx q ltac:(lia)) as Hcases.
      destruct (optionCardClick idx q) as [q1 e1]. cbn [fst snd] in Hcases.
      destruct Hcases as [Hcci [Hrhythm Hcases]].
      assert (0 <= attemptsRemaining q1 <= attemptsRemaining q) as Hq1
        by (destruct Hcases as [H|[H|H]]; lia).
      specialize (IH q1 ltac:(lia)). destruct (clicks rest q1) as [q2 e2].
      cbn [fst] in *. destruct IH as [Hrange [Hcci2 Hrhythm2]].
      split; [lia|]. split; congruence.
Qed.

(** X11.  Once no try is left (after the correct answer, or after the last
    wrong one), clicking cards does nothing: no toast, no new question
    scheduled, no change of state. *)
Theorem clicks_after_the_end_do_nothing (idxs : list Z) (q : Quiz) :
  attemptsRemaining q <= 0 -> clicks idxs q = (q, []).
Proof.
  apply clicks_over.
Qed.

Lemma clicks_schedules (idxs : list Z) :
  forall q : Quiz,
    (List.length (filter isSchedule (snd (clicks idxs q))) <= 1)%nat
    /\ (0 < attemptsRemaining q ->
        attemptsRemaining (fst (clicks idxs q)) <= 0 ->
        List.length (filter isSchedule (snd (clicks idxs q))) = 1%nat).
Proof.
  induction idxs as [|idx rest IH]; intros q.
  - simpl. split; [lia | intros; lia].
  - cbn [clicks].
    destruct (Z_le_gt_dec (attemptsRemaining q) 0) as [Hover|Hleft].
    + rewrite (optionCardClick_over idx q Hover), (clicks_over rest q Hover).
      simpl. split; [lia | intros; lia].
    + pose proof (optionCardClick_cases idx q ltac:(lia)) as Hcases.
      destruct (optionCardClick idx q) as [q1 e1]. cbn [fst snd] in Hcases.
      destruct Hcases as [_ [_ [[_ [Hzero ->]]|[[_ [Hmore [Hless [text ->]]]]
                                               |[_ [_ [Hzero [text ->]]]]]]]].
      * rewrite (clicks_over rest q1 ltac:(lia)). simpl. split; [lia | intros; lia].
      * destruct (IH q1) as [Hle Hone]. destruct (clicks rest q1) as [q2 e2].
        cbn [fst snd] in *. simpl. split; [exact Hle|].
        intros _ Hend. apply Hone; lia.
      * rewrite (clicks_over rest q1 ltac:(lia)). simpl. split; [lia | intros; lia].
Qed.

(** X12.  Whatever cards are clicked, and however often, and whatever the
    state of the question, the clicks schedule at most one new question. *)
Theorem clicks_schedule_at_most_one_question (idxs : list Z) (q : Quiz) :
  (List.length (filter isSchedule (snd (clicks idxs q))) <= 1)%nat.
Proof.
  exact (proj1 (clicks_schedules idxs q)).
Qed.

(** X13.  Three clicks end a question: from the three tries that
    [newQuestion] gives, any three clicks (and any clicks after them) leave
    no try and exactly one new question scheduled. *)
Theorem three_clicks_end_the_question
    (correctIdx : Z) (rhythm : option Bars) (i1 i2 i3 : Z) (more : list Z) :
  attemptsRemaining
    (fst (clicks (i1 :: i2 :: i3 :: more) (mkQuiz correctIdx 3 rhythm))) = 0
  /\ List.length
       (filter isSchedule
               (snd (clicks (i1 :: i2 :: i3 :: more) (mkQuiz correctIdx 3 rhythm))))
     = 1%nat.
Proof.
  assert (attemptsRemaining
            (fst (clicks (i1 :: i2 :: i3 :: more) (mkQuiz correctIdx 3 rhythm))) = 0)
    as Hend.
  { change (i1 :: i2 :: i3 :: more) with ([i1; i2; i3] ++ more).
    assert (forall a b q, clicks (a ++ b) q
                          = (fst (clicks b (fst (clicks a q))),
                             snd (clicks a q) ++ snd (clicks b (fst (clicks a q)))))
      as Happ.
    { induction a as [|x a IHa]; intros b q.
      - simpl. destruct (clicks b q); reflexivity.
      - cbn [app clicks]. destruct (optionCardClick x q) as [q1 e1].
        rewrite IHa. destruct (clicks a q1) as [q2 e2]. cbn [fst snd].
        rewrite app_assoc. reflexivity. }
    rewrite Happ. cbn [fst].
    assert (attemptsRemaining (fst (clicks [i1; i2; i3] (mkQuiz correctIdx 3 rhythm)))
            = 0) as Hthree.
    { cbn [clicks]. unfold optionCardClick. cbn.
      destruct (correctIdx =? i1); cbn; [reflexivity|].
      destruct (correctIdx =? i2); cbn; [reflexivity|].
      destruct (correctIdx =? i3); cbn; reflexivity. }
    rewrite (clicks_over more _ (Z.eq_le_incl _ _ Hthree)). exact Hthree. }
  split; [exact Hend|].
  apply (proj2 (clicks_schedules _ _)); cbn [attemptsRemaining]; lia.
Qed.

(** X14.  The feedback is truthful: while tries are left, a click is
    answered by the toast "Correct!" if and only if it is on the card of the
    correct option. *)
Theorem correct_toast_iff_correct_card (idx : Z) (q : Quiz) :
  0 < attemptsRemaining q ->
  (In (Toast "Correct!" true) (snd (optionCardClick idx q))
   <-> idx = currentCorrectIndex q).
Proof.
  intros Hleft.
  pose proof (optionCardClick_cases idx q Hleft) as Hcases.
  cbv zeta in Hcases.
  destruct Hcases as [_ [_ [[Hidx [_ ->]]|[[Hidx [_ [_ [text ->]]]]
                                          |[Hidx [_ [_ [text ->]]]]]]]].
  - split; [intros _; exact Hidx | intros _; left; reflexivity].
  - split; [|contradiction]. intros [H|[]]. discriminate.
  - split; [|contradiction]. intros [H|[H|[]]]; discriminate.
Qed.

Lemma clicks_keep_attempts_in_range_witness :
  0 <= attemptsRemaining (mkQuiz 2 3 None)
  /\ (0 <= attemptsRemaining (fst (clicks [0; 1] (mkQuiz 2 3 None)))
        <= attemptsRemaining (mkQuiz 2 3 None)
      /\ currentCorrectIndex (fst (clicks [0; 1] (mkQuiz 2 3 None)))
         = currentCorrectIndex (mkQuiz 2 3 None)
      /\ currentRhythm (fst (clicks [0; 1] (mkQuiz 2 3 None)))
         = currentRhythm (mkQuiz 2 3 None)).
Proof.
  assert (0 <= attemptsRemaining (mkQuiz 2 3 None)) as H by (simpl; lia).
  split; [exact H|].
  exact (clicks_keep_attempts_in_range [0; 1] (mkQuiz 2 3 None) H).
Defined.

Lemma clicks_after_the_end_do_nothing_witness :
  attemptsRemaining (fst (clicks [2] (mkQuiz 2 3 None))) <= 0
  /\ clicks [0; 2; 1] (fst (clicks [2] (mkQuiz 2 3 None)))
     = (fst (clicks [2] (mkQuiz 2 3 None)), []).
Proof.
  assert (attemptsRemaining (fst (clicks [2] (mkQuiz 2 3 None))) <= 0) as H
    by (simpl; lia).
  split; [exact H|].
  exact (clicks_after_the_end_do_nothing [0; 2; 1] _ H).
Defined.

Lemma correct_toast_iff_correct_card_witness :
  0 < attemptsRemaining (mkQuiz 2 1 None)
  /\ (In (Toast "Correct!" true) (snd (optionCardClick 0 (mkQuiz 2 1 None)))
      <-> 0 = currentCorrectIndex (mkQuiz 2 1 None)).
Proof.
  assert (0 < attemptsRemaining (mkQuiz 2 1 None)) as H by (simpl; lia).
  split; [exact H|].
  exact (correct_toast_iff_correct_card 0 (mkQuiz 2 1 None) H).
Defined.

(* ================================================================== *)
(** * Properties of the playback *)
(* ================================================================== *)

Section PlaybackFacts.
Context {number : JSNumber}.

Lemma eventsOfToken_pos (token : Token) : (1 <= eventsOfToken token)%nat.
Proof. unfold eventsOfToken. destruct (isTriplet token); lia. Qed.

Lemma playToken_accents (token : Token) (first : bool) (cursor : num) :
  map snd (fst (playToken token first cursor))
  = first :: repeat false (eventsOfToken token - 1).
Proof.
  unfold playToken, eventsOfToken. destruct (isTriplet token); reflexivity.
Qed.

Lemma playTokens_accents (bar : Bar) :
  forall (first : bool) (cursor : num),
    map snd (fst (playTokens bar first cursor))
    = match bar with
      | [] => []
      | _ :: _ => first :: repeat false (barEvents bar - 1)
      end.
Proof.
  induction bar as [|token rest IH]; intros first cursor; [reflexivity|].
  cbn [playTokens].
  pose proof (playToken_accents token first cursor) as Htoken.
  destruct (playToken token first cursor) as [scheduled cursor'].
  specialize (IH false cursor').
  destruct (playTokens rest false cursor') as [scheduled' cursor''].
  cbn [fst] in *. unfold Click in *. rewrite map_app, Htoken, IH.
  pose proof (eventsOfToken_pos token) as Hpos.
  cbn [app]. f_equal.
  assert (barEvents (token :: rest) = eventsOfToken token + barEvents rest)%nat
    as -> by reflexivity.
  replace (eventsOfToken token + barEvents rest - 1)%nat
    with ((eventsOfToken token - 1) + barEvents rest)%nat by lia.
  rewrite repeat_app. f_equal.
  destruct rest as [|token' rest']; [reflexivity|].
  assert (1 <= barEvents (token' :: rest'))%nat as Hrest.
  { unfold barEvents, list_sum. cbn [map fold_right].
    pose proof (eventsOfToken_pos token'). lia. }
  change (false :: repeat false (barEvents (token' :: rest') - 1))
    with (repeat false (S (barEvents (token' :: rest') - 1))).
  f_equal. lia.
Qed.

Lemma playBars_accents (bars : Bars) :
  forall cursor : num,
    map (map snd) (fst (playBars bars cursor)) = map firstAccented bars.
Proof.
  induction bars as [|bar rest IH]; intros cursor; [reflexivity|].
  cbn [playBars].
  pose proof (playTokens_accents bar true cursor) as Hbar.
  destruct (playTokens bar true cursor) as [scheduled cursor'].
  specialize (IH cursor').
  destruct (playBars rest cursor') as [scheduled' cursor''].
  cbn [fst map] in *. rewrite Hbar, IH. reflexivity.
Qed.

Lemma playRhythm_scheduled (bar : Bar) (rest : Bars) (currentTime : num) (p : Player) :
  playRhythm (bar :: rest) currentTime p
  = (scheduledOscillators p,
     mkPlayer true
              (List.concat (fst (playBars (bar :: rest) (num_add currentTime num_tenth))))
              (playbackTimeout (snd (playRhythm (bar :: rest) currentTime p)))
              (match playBtn p with
               | Some _ => Some (mkButton true "Playing...")
               | None => None
               end)).
Proof.
  unfold playRhythm, stopPlayback, finalizePlaybackState.
  destruct (playBars (bar :: rest) (num_add currentTime num_tenth)) as [scheduled cursor].
  cbn [fst snd scheduledOscillators playBtn playbackTimeout app].
  destruct (playBtn p); reflexivity.
Qed.

(** X15.  [playRhythm] on a rhythm with at least one bar stops exactly the
    oscillators that were scheduled before, and the clicks it schedules are,
    bar after bar, one for each note (three for a triplet group) with the
    first click of each bar accented and no other; clicks of an earlier
    playback do not stay in the list. *)
Theorem playRhythm_accents_first_click_of_each_bar
    (bar : Bar) (rest : Bars) (currentTime : num) (p : Player) :
  fst (playRhythm (bar :: rest) currentTime p) = scheduledOscillators p
  /\ isPlaying (snd (playRhythm (bar :: rest) currentTime p)) = true
  /\ map snd (scheduledOscillators (snd (playRhythm (bar :: rest) currentTime p)))
     = List.concat (map firstAccented (bar :: rest)).
Proof.
  rewrite playRhythm_scheduled. cbn [fst snd isPlaying scheduledOscillators].
  split; [reflexivity|]. split; [reflexivity|].
  rewrite concat_map, playBars_accents. reflexivity.
Qed.

(** X16.  A second press of the play button while the rhythm plays stops
    exactly the clicks that the first press scheduled, and leaves the player
    as [finalizePlaybackState] would have left it before the first press: not
    playing, nothing scheduled, no timer, the button enabled with its
    text. *)
Theorem second_press_stops_the_playback
    (bar : Bar) (rest : Bars) (rhythm : Bars) (currentTime currentTime' : num)
    (p : Player) :
  playButtonClick rhythm currentTime' (snd (playRhythm (bar :: rest) currentTime p))
  = (List.concat (fst (playBars (bar :: rest) (num_add currentTime num_tenth))),
     finalizePlaybackState p).
Proof.
  rewrite playRhythm_scheduled. cbn [snd].
  unfold playButtonClick, stopPlayback, finalizePlaybackState.
  cbn [isPlaying scheduledOscillators playBtn].
  destruct (playBtn p); reflexivity.
Qed.

Lemma playToken_count (token : Token) (first : bool) (cursor : num) :
  List.length (fst (playToken token first cursor)) = eventsOfToken token.
Proof.
  unfold playToken, eventsOfToken. destruct (isTriplet token); reflexivity.
Qed.

Lemma playTokens_count (bar : Bar) :
  forall (first : bool) (cursor : num),
    List.length (fst (playTokens bar first cursor)) = barEvents bar.
Proof.
  induction bar as [|token rest IH]; intros first cursor; [reflexivity|].
  cbn [playTokens].
  pose proof (playToken_count token first cursor) as Htoken.
  destruct (playToken token first cursor) as [scheduled cursor'].
  specialize (IH false cursor').
  destruct (playTokens rest false cursor') as [scheduled' cursor''].
  cbn [fst] in *. rewrite length_app, Htoken, IH. reflexivity.
Qed.

Lemma notesOfToken_count (token : Token) :
  List.length (notesOfToken token) = eventsOfToken token.
Proof.
  unfold notesOfToken, eventsOfToken. destruct (isTriplet token); reflexivity.
Qed.

Lemma barNotes_count (bar : Bar) :
  List.length (List.concat (map notesOfToken bar)) = barEvents bar.
Proof.
  induction bar as [|token rest IH]; [reflexivity|].
  cbn [map List.concat]. rewrite length_app, notesOfToken_count, IH. reflexivity.
Qed.

(** X17.  The notation and the playback agree: bar by bar, the number of
    notes that [renderRhythmInto] puts on the stave is the number of clicks
    that [playRhythm] schedules, whatever the tokens are. *)
Theorem notes_drawn_match_clicks_played (bars : Bars) (cursor : num) :
  map (@List.length StaveNote) (barNotes bars)
  = map (@List.length Click) (fst (playBars bars cursor)).
Proof.
  revert cursor. induction bars as [|bar rest IH]; intros cursor; [reflexivity|].
  cbn [playBars].
  pose proof (playTokens_count bar true cursor) as Hbar.
  destruct (playTokens bar true cursor) as [scheduled cursor'].
  specialize (IH cursor').
  destruct (playBars rest cursor') as [scheduled' cursor''].
  unfold barNotes in *. cbn [fst map] in *.
  rewrite barNotes_count, Hbar, IH. reflexivity.
Qed.

End PlaybackFacts.

(* ================================================================== *)
(** * Properties of the notation and of the fallback text *)
(* ================================================================== *)

Lemma catalog_notes (t : Token) :
  In t catalog ->
  Forall (fun n => In (duration n) (map vfDur baseTokens)
                   /\ addedDots n = (if isDotted t then 1%nat else 0%nat))
         (notesOfToken t).
Proof.
  intros Hin. unfold catalog in Hin. simpl in Hin.
  repeat (destruct Hin as [<-|Hin];
          [repeat constructor; simpl; tauto|]).
  contradiction.
Qed.

Lemma notesOfToken_nonempty (t : Token) : notesOfToken t <> [].
Proof. unfold notesOfToken. destruct (isTriplet t); discriminate. Qed.

Lemma labels_prefix_free_true : labels_prefix_free = true.
Proof. vm_compute. reflexivity. Qed.

Lemma catalog_labels_start_plainly : forallb label_starts_plainly catalog = true.
Proof. vm_compute. reflexivity. Qed.

Lemma tokenLabel_split (t1 t2 : Token) (r1 r2 : string) :
  In t1 catalog -> In t2 catalog ->
  (tokenLabel t1 ++ r1 = tokenLabel t2 ++ r2)%string -> t1 = t2 /\ r1 = r2.
Proof.
  intros H1 H2 H.
  pose proof labels_prefix_free_true as Hfree. unfold labels_prefix_free in Hfree.
  rewrite forallb_forall in Hfree.
  assert (forall a b, In a catalog -> In b catalog ->
                      prefix (tokenLabel a) (tokenLabel b) = true -> a = b) as Hinj.
  { intros a b Ha Hb Hp. specialize (Hfree a Ha).
    rewrite forallb_forall in Hfree. specialize (Hfree b Hb).
    rewrite Hp in Hfree. simpl in Hfree. rewrite orb_false_r in Hfree.
    apply token_eqb_eq. exact Hfree. }
  assert (t1 = t2) as ->.
  { destruct (append_eq_prefix _ _ _ _ H) as [Hp|Hp].
    - apply Hinj; assumption.
    - symmetry. apply Hinj; assumption. }
  split; [reflexivity|]. eapply append_inv_head. exact H.
Qed.

Lemma tokenLabel_not_empty (t : Token) (r : string) :
  In t catalog -> (tokenLabel t ++ r)%string <> "".
Proof.
  intros Hin Heq.
  pose proof catalog_labels_start_plainly as Hs.
  rewrite forallb_forall in Hs. specialize (Hs t Hin).
  unfold label_starts_plainly in Hs.
  destruct (tokenLabel t) as [|c k]; [discriminate|]. discriminate.
Qed.

Lemma barText_inj (b1 : Bar) :
  forall b2 : Bar,
    Forall (fun t => In t catalog) b1 -> Forall (fun t => In t catalog) b2 ->
    Array_join "   " (map tokenLabel b1) = Array_join "   " (map tokenLabel b2) ->
    b1 = b2.
Proof.
  induction b1 as [|t1 b1 IH]; intros b2 Hc1 Hc2 H.
  - destruct b2 as [|t2 b2]; [reflexivity|].
    exfalso. simpl map in H. rewrite Array_join_cons in H.
    inversion Hc2; subst.
    eapply tokenLabel_not_empty; [eassumption | symmetry; exact H].
  - destruct b2 as [|t2 b2].
    + exfalso. simpl map in H. rewrite Array_join_cons in H.
      inversion Hc1; subst.
      eapply tokenLabel_not_empty; [eassumption | exact H].
    + simpl map in H. rewrite !Array_join_cons in H.
      inversion Hc1 as [|? ? Ht1 Hb1]; subst.
      inversion Hc2 as [|? ? Ht2 Hb2]; subst.
      apply tokenLabel_split in H; [|assumption|assumption].
      destruct H as [-> H]. f_equal.
      destruct b1 as [|u1 b1], b2 as [|u2 b2]; simpl join_rest in H.
      * reflexivity.
      * discriminate.
      * discriminate.
      * apply IH; [exact Hb1 | exact Hb2 |].
        change ("   " ++ Array_join "   " (map tokenLabel (u1 :: b1)))%string
          with (String " " (String " " (String " "
                  (Array_join "   " (map tokenLabel (u1 :: b1)))))) in H.
        change ("   " ++ Array_join "   " (map tokenLabel (u2 :: b2)))%string
          with (String " " (String " " (String " "
                  (Array_join "   " (map tokenLabel (u2 :: b2)))))) in H.
        injection H as H. exact H.
Qed.

Lemma renderRhythmFallback_texts (bars : Bars) :
  forall i : Z,
    map snd (Array_mapi_from
               (fun (bar : Bar) (idx : Z) =>
                  (("Bar " ++ Number_toString (idx + 1))%string,
                   Array_join "   " (map tokenLabel bar)))
               i bars)
    = map (fun bar => Array_join "   " (map tokenLabel bar)) bars.
Proof.
  induction bars as [|bar rest IH]; intros i; [reflexivity|].
  cbn [Array_mapi_from map snd]. rewrite IH. reflexivity.
Qed.

(** X18.  The text that [renderRhythmFallback] shows when the notation
    cannot be drawn tells rhythms apart: two arrays of bars of catalog
    tokens with the same rows are the same bars, token for token. *)
Theorem renderRhythmFallback_distinguishes (b1 b2 : Bars) :
  Forall (Forall (fun t => In t catalog)) b1 ->
  Forall (Forall (fun t => In t catalog)) b2 ->
  renderRhythmFallback b1 = renderRhythmFallback b2 ->
  b1 = b2.
Proof.
  intros Hc1 Hc2 Hrows.
  assert (map (fun bar => Array_join "   " (map tokenLabel bar)) b1
          = map (fun bar => Array_join "   " (map tokenLabel bar)) b2) as Htexts.
  { rewrite <- (renderRhythmFallback_texts b1 0), <- (renderRhythmFallback_texts b2 0).
    f_equal. exact Hrows. }
  clear Hrows. revert b2 Hc2 Htexts.
  induction Hc1 as [|bar1 rest1 Hbar1 Hrest1 IH]; intros b2 Hc2 Htexts.
  - destruct b2; [reflexivity | discriminate].
  - destruct b2 as [|bar2 rest2]; [discriminate|].
    inversion Hc2 as [|? ? Hbar2 Hrest2]; subst.
    cbn [map] in Htexts. injection Htexts as Hbar Hrest.
    rewrite (barText_inj bar1 bar2 Hbar1 Hbar2 Hbar).
    rewrite (IH rest2 Hrest2 Hrest). reflexivity.
Qed.

Lemma renderRhythmFallback_distinguishes_witness :
  Forall (Forall (fun t => In t catalog))
         [[TYPES_crotchet; tripletGroup TYPES_quaver]; [dottedOf TYPES_minim]]
  /\ renderRhythmFallback
       [[TYPES_crotchet; tripletGroup TYPES_quaver]; [dottedOf TYPES_minim]]
     = renderRhythmFallback
         [[TYPES_crotchet; tripletGroup TYPES_quaver]; [dottedOf TYPES_minim]]
  /\ [[TYPES_crotchet; tripletGroup TYPES_quaver]; [dottedOf TYPES_minim]]
     = [[TYPES_crotchet; tripletGroup TYPES_quaver]; [dottedOf TYPES_minim]].
Proof.
  assert (Forall (Forall (fun t => In t catalog))
                 [[TYPES_crotchet; tripletGroup TYPES_quaver]; [dottedOf TYPES_minim]])
    as Hc by (repeat constructor; apply in_catalog_In; reflexivity).
  split; [exact Hc|].
  split; [reflexivity|].
  exact (renderRhythmFallback_distinguishes _ _ Hc Hc eq_refl).
Defined.

Section NotationFacts.
Context {rt : JSRuntime}.

(** X19.  The notes drawn for a generated rhythm are always drawable, for
    every level and whatever the random source yields: every note has one of
    the six durations of [TYPES] (the fallback on the units of the token never
    leaves it undefined) and at most one dot. *)
Theorem generated_notes_have_durations (levelKey : LevelKey) (g : RNG) :
  exists r g',
    generateForLevel levelKey g = Some (r, g')
    /\ Forall (fun n => In (duration n) (map vfDur baseTokens)
                        /\ (addedDots n <= 1)%nat)
              (allNotes (bars r)).
Proof.
  destruct (generateForLevel_is_rhythm levelKey g) as [r [g' [Hgen Hr]]].
  exists r, g'. split; [exact Hgen|].
  apply is_rhythm_catalog in Hr. destruct Hr as [_ Hcat].
  unfold allNotes, barNotes.
  induction Hcat as [|bar rest Hbar Hrest IH]; [constructor|].
  cbn [map List.concat]. apply Forall_app. split; [|exact IH].
  clear IH Hrest. induction Hbar as [|t bar Ht Hbar IH]; [constructor|].
  cbn [map List.concat]. apply Forall_app. split; [|exact IH].
  eapply Forall_impl; [|exact (catalog_notes t Ht)].
  intros n [Hd Hdots]. split; [exact Hd|].
  rewrite Hdots. destruct (isDotted t); lia.
Qed.

(** X20.  For a generated rhythm, [renderRhythmInto] draws exactly one
    barline, in front of the second bar, for every level and whatever the
    random source yields: there are two bars and the second always has a
    note. *)
Theorem generated_rhythm_has_one_barline (levelKey : LevelKey) (g : RNG) :
  exists r g',
    generateForLevel levelKey g = Some (r, g')
    /\ barlineIndices (bars r) = [1].
Proof.
  destruct (generateForLevel_bounds levelKey g) as [bar0 [bar1 [g' [Hgen Hbars]]]].
  exists (mkRhythm [bar0; bar1]), g'. split; [exact Hgen|].
  inversion Hbars as [|? ? _ Hrest]; subst.
  inversion Hrest as [|? ? [Hne _] _]; subst.
  destruct bar1 as [|t bar1]; [contradiction|].
  unfold barlineIndices, barNotes.
  cbn [bars map List.length Array_mapi_from tl filter fst snd List.concat Nat.ltb Nat.leb].
  pose proof (notesOfToken_nonempty t) as Hnote.
  destruct (notesOfToken t) as [|n notes]; [contradiction|].
  reflexivity.
Qed.

(** X21.  [pickRandom] on an array that is not empty returns one of its
    elements, the one at index [Math.floor(Math.random() * arr.length)], and
    consumes exactly one draw of [Math.random]: although the product is
    rounded to a double, and the rounding can lift it to the next integer,
    the index is never out of range. *)
Theorem pickRandom_returns_an_element {A : Type} (arr : list A) (g : RNG) :
  arr <> [] ->
  exists x,
    pickRandom arr g = Some (x, snd (Math_random g))
    /\ nth_error arr (floor_scale (fst (Math_random g)) (List.length arr)) = Some x
    /\ (floor_scale (fst (Math_random g)) (List.length arr) < List.length arr)%nat
    /\ In x arr.
Proof.
  intros Hne. unfold pickRandom, bind, random, defined.
  destruct (Math_random g) as [d g']. cbn [fst snd].
  assert (0 < List.length arr)%nat as Hlen.
  { destruct arr; [contradiction | simpl; lia]. }
  pose proof (floor_scale_lt d _ Hlen) as Hi.
  pose proof Hi as Hsome. apply nth_error_Some in Hsome.
  destruct (nth_error arr (floor_scale d (List.length arr))) as [x|] eqn:Hx;
    [|contradiction].
  exists x. split; [reflexivity|]. split; [reflexivity|]. split; [exact Hi|].
  eapply nth_error_In. exact Hx.
Qed.

End NotationFacts.

Lemma pickRandom_returns_an_element_witness :
  easyTokens <> []
  /\ exists x,
       @pickRandom Reference.runtime Token easyTokens (mkState [] 7)
       = Some (x, snd (Math_random (mkState [] 7)))
       /\ nth_error easyTokens
                    (floor_scale (fst (Math_random (mkState [] 7)))
                                 (List.length easyTokens)) = Some x
       /\ (floor_scale (fst (Math_random (mkState [] 7))) (List.length easyTokens)
           < List.length easyTokens)%nat
       /\ In x easyTokens.
Proof.
  assert (easyTokens <> []) as Hne by discriminate.
  split; [exact Hne|].
  exact (pickRandom_returns_an_element easyTokens (mkState [] 7) Hne).
Defined.

Lemma fillBar_validation_counts_the_bar_witness :
  poolOf (LEVELS medium) (levelPool medium) (tripletGroup TYPES_quaver) <> []
  /\ exists kept used g' bar g'',
       @fillBar_validated Reference.runtime (LEVELS medium) (levelPool medium)
                          (tripletGroup TYPES_quaver) [TYPES_semibreve; TYPES_minim]
                          (mkState [] 99)
       = Some ((kept, used), g')
       /\ used = barUnits kept
       /\ @fillBar Reference.runtime (LEVELS medium) (levelPool medium)
                   (tripletGroup TYPES_quaver) [TYPES_semibreve; TYPES_minim]
                   (mkState [] 99)
          = Some (bar, g'')
       /\ barUnits bar = used.
Proof.
  assert (poolOf (LEVELS medium) (levelPool medium) (tripletGroup TYPES_quaver) <> [])
    as Hne by discriminate.
  split; [exact Hne|].
  exact (fillBar_validation_counts_the_bar (LEVELS medium) (levelPool medium)
           (tripletGroup TYPES_quaver) [TYPES_semibreve; TYPES_minim]
           (mkState [] 99) Hne).
Defined.

(* ================================================================== *)
(** * The padding and the budget of the sampling loop *)
(* ================================================================== *)

Section SamplingBudget.
Context {rt : JSRuntime}.

Lemma greedyFill_tries_spec (allowedPool : list Token) (left : nat) :
  allowedPool <> [] ->
  forall (tries : nat) (tokens : list Token) (usedUnits : Z) (g : RNG),
  exists added g' n,
    greedyFill_tries allowedPool left tries tokens usedUnits g
      = Some ((tokens ++ added, usedUnits + barUnits added, n), g')
    /\ greedyFill allowedPool left tokens usedUnits g
       = Some ((tokens ++ added, usedUnits + barUnits added), g')
    /\ (usedUnits + barUnits added < UNITS_PER_BAR -> n = (tries + left)%nat).
Proof.
  intros Hne. induction left as [|left IH]; intros tries tokens usedUnits g.
  - exists [], g, tries. cbn [greedyFill_tries greedyFill barUnits].
    unfold ret. rewrite app_nil_r. simpl barUnits. rewrite Z.add_0_r.
    repeat split. intros _. lia.
  - cbn [greedyFill_tries greedyFill].
    destruct (usedUnits <? UNITS_PER_BAR) eqn:Hlt.
    + destruct (pickRandom_In allowedPool g Hne) as [cand [g1 [Hpick Hin]]].
      rewrite !(bind_Some _ _ _ _ _ Hpick).
      destruct (usedUnits + units cand >? UNITS_PER_BAR) eqn:Hfit.
      * destruct (IH (S tries) tokens usedUnits g1)
          as [added [g' [n [Hrun [Hsame Hn]]]]].
        exists added, g', n. split; [exact Hrun|]. split; [exact Hsame|].
        intros Hshort. rewrite (Hn Hshort). lia.
      * rewrite Object_assign_same.
        destruct (IH (S tries) (tokens ++ [cand]) (usedUnits + units cand) g1)
          as [added [g' [n [Hrun [Hsame Hn]]]]].
        exists (cand :: added), g', n.
        rewrite <- app_assoc in Hrun, Hsame. cbn [app] in Hrun, Hsame.
        assert (usedUnits + barUnits (cand :: added)
                = usedUnits + units cand + barUnits added) as -> by (simpl; lia).
        split; [exact Hrun|]. split; [exact Hsame|].
        intros Hshort. rewrite (Hn Hshort). lia.
    + apply Z.ltb_ge in Hlt.
      exists [], g, tries. unfold ret. rewrite app_nil_r. simpl barUnits.
      rewrite Z.add_0_r. repeat split. intros Hshort. lia.
Qed.

(** Every token of the bar that [fillBar] returns is a required token, a
    token sampled from the pool, or a demisemiquaver of the padding loop, and
    there is padding only when the sampling loop has used up its 1000
    tries. *)
Lemma fillBar_padding_after_budget (cfg : LevelCfg) (allowedTokens : list Token)
    (tripletTemplate : Token) (req : list Token) (g : RNG) :
  poolOf cfg allowedTokens tripletTemplate <> [] ->
  exists bar g',
    fillBar cfg allowedTokens tripletTemplate req g = Some (bar, g')
    /\ Forall (fun t =>
                 In t req
                 \/ In t (poolOf cfg allowedTokens tripletTemplate)
                 \/ (t = smallest
                     /\ samplingExhausted (poolOf cfg allowedTokens tripletTemplate)
                                          req g))
              bar.
Proof.
  intros Hne.
  destruct (greedyFill_tries_spec _ maxTries Hne 0%nat req (barUnits req) g)
    as [added [g1 [n [Htries [Hrun Hn]]]]].
  assert (exists kept used,
             fillBar_validated cfg allowedTokens tripletTemplate req g
             = Some ((kept, used), g1)
             /\ exists popped,
                  (req ++ added)
                    ++ repeat smallest
                         (Z.to_nat (UNITS_PER_BAR - (barUnits req + barUnits added)))
                  = kept ++ popped) as [kept [used [Hval [popped Hkept]]]].
  { unfold fillBar_validated, fillBar_untrimmed.
    rewrite placeRequired_spec. cbn [fst snd].
    unfold bind at 1. unfold bind at 1. rewrite Hrun. unfold ret. cbn [fst snd].
    rewrite padFill_full. cbn [fst snd].
    destruct (trimOverfill_spec 50
                ((req ++ added) ++ repeat smallest
                   (Z.to_nat (UNITS_PER_BAR - (barUnits req + barUnits added))))
                (Z.max (barUnits req + barUnits added) UNITS_PER_BAR))
      as [popped [Hkept _]].
    destruct (trimOverfill 50 _ _) as [kept used]. cbn [fst] in Hkept.
    exists kept, used. split; [reflexivity|]. exists popped. exact Hkept. }
  destruct (fillBar_perm _ _ _ _ _ _ _ _ Hval) as [bar [g2 [Hfill Hperm]]].
  exists bar, g2. split; [exact Hfill|].
  destruct (greedyFill_spec _ maxTries Hne req (barUnits req) g)
    as [added' [g1' [Hrun' [Hall _]]]].
  assert (added' = added) as ->.
  { rewrite Hrun in Hrun'. injection Hrun' as Happ _ _.
    apply app_inv_head in Happ. symmetry. exact Happ. }
  apply Forall_forall. intros t Ht.
  assert (In t (kept ++ popped)) as Hin.
  { apply in_or_app. left. eapply Permutation_in; [exact Hperm | exact Ht]. }
  rewrite <- Hkept in Hin.
  apply in_app_or in Hin. destruct Hin as [Hin|Hin].
  - apply in_app_or in Hin. destruct Hin as [Hin|Hin]; [left; exact Hin|].
    right. left. rewrite Forall_forall in Hall. apply Hall. exact Hin.
  - right. right.
    assert (barUnits req + barUnits added < UNITS_PER_BAR) as Hshort.
    { destruct (Z.to_nat (UNITS_PER_BAR - (barUnits req + barUnits added))) eqn:Hk;
        [contradiction | lia]. }
    split; [apply repeat_spec in Hin; exact Hin|].
    unfold samplingExhausted. rewrite placeRequired_spec. cbn [fst snd].
    exists (req ++ added), (barUnits req + barUnits added), g1.
    split; [|exact Hshort].
    rewrite Htries, (Hn Hshort).
    assert (maxTries = 1000%nat) as -> by reflexivity.
    reflexivity.
Qed.

(** C6.  For the easy level, whatever the random source yields, the generator
    returns two bars whose every token is one of semibreve, minim, crotchet
    and quaver, or a demisemiquaver that the padding loop appended because
    the sampling loop of that bar had used up its 1000 tries with the bar
    still short; none is dotted, a triplet group or a semiquaver. *)
Theorem easy_tokens_or_padding (g : RNG) :
  exists r0 r1 g0 bar0 g1 bar1 g',
    distribute easyTokens [] [] g = Some ((r0, r1), g0)
    /\ fillBar (LEVELS easy) easyTokens (tripletGroup TYPES_quaver) r0 g0
       = Some (bar0, g1)
    /\ fillBar (LEVELS easy) easyTokens (tripletGroup TYPES_quaver) r1 g1
       = Some (bar1, g')
    /\ generateForLevel easy g = Some (mkRhythm [bar0; bar1], g')
    /\ Forall (fun t => (In t easyTokens
                         \/ (t = smallest /\ samplingExhausted easyTokens r0 g0))
                        /\ isDotted t = false /\ isTriplet t = false
                        /\ name t <> "semiquaver") bar0
    /\ Forall (fun t => (In t easyTokens
                         \/ (t = smallest /\ samplingExhausted easyTokens r1 g1))
                        /\ isDotted t = false /\ isTriplet t = false
                        /\ name t <> "semiquaver") bar1.
Proof.
  assert (allowedOf (LEVELS easy) = Some easyTokens) as Hallowed by reflexivity.
  assert (resolveRequired (LEVELS easy) (tripletGroup TYPES_quaver) g
          = Some (easyTokens, g)) as Hreq by reflexivity.
  destruct (distribute_split easyTokens [] [] g) as [r0 [r1 [g0 [Hdist [H0 [H1 _]]]]]].
  cbn [app] in Hdist.
  assert (poolOf (LEVELS easy) easyTokens (tripletGroup TYPES_quaver) <> [])
    as Hne by discriminate.
  destruct (fillBar_padding_after_budget (LEVELS easy) easyTokens
              (tripletGroup TYPES_quaver) r0 g0 Hne) as [bar0 [g1 [Hfill0 Hall0]]].
  destruct (fillBar_padding_after_budget (LEVELS easy) easyTokens
              (tripletGroup TYPES_quaver) r1 g1 Hne) as [bar1 [g' [Hfill1 Hall1]]].
  exists r0, r1, g0, bar0, g1, bar1, g'.
  split; [exact Hdist|]. split; [exact Hfill0|]. split; [exact Hfill1|].
  split; [exact (generateForLevel_steps easy _ _ _ _ _ _ _ _ _ _ _
                   Hallowed Hreq Hdist Hfill0 Hfill1)|].
  change (poolOf (LEVELS easy) easyTokens (tripletGroup TYPES_quaver))
    with easyTokens in Hall0, Hall1.
  assert (forall (r : list Token) (s : RNG) (t : Token),
             In r (sublists easyTokens) ->
             In t r \/ In t easyTokens
             \/ (t = smallest /\ samplingExhausted easyTokens r s) ->
             (In t easyTokens \/ (t = smallest /\ samplingExhausted easyTokens r s))
             /\ isDotted t = false /\ isTriplet t = false
             /\ name t <> "semiquaver") as Hkind.
  { intros r s t Hr Ht.
    assert (In t easyTokens \/ (t = smallest /\ samplingExhausted easyTokens r s))
      as Hcase.
    { destruct Ht as [Ht|[Ht|Ht]].
      - left. exact (sublists_incl _ _ Hr _ Ht).
      - left. exact Ht.
      - right. exact Ht. }
    split; [exact Hcase|].
    destruct Hcase as [Hin|[-> _]].
    - simpl in Hin.
      destruct Hin as [<-|[<-|[<-|[<-|[]]]]];
        (split; [reflexivity|]; split; [reflexivity|]; discriminate).
    - split; [reflexivity|]. split; [reflexivity|]. discriminate. }
  split; (eapply Forall_impl; [|eassumption]); intros t Ht;
    (eapply Hkind; [|exact Ht]); assumption.
Qed.

End SamplingBudget.

(* ================================================================== *)
(** * The timing of a triplet group *)
(* ================================================================== *)

(** In exact arithmetic three steps of one third of a beat are one beat. *)
Lemma three_thirds_exact (cursor subDur beat : QArith_base.Q) :
  QArith_base.Qeq (QArith_base.Qplus subDur (QArith_base.Qplus subDur subDur)) beat ->
  QArith_base.Qeq
    (QArith_base.Qplus (QArith_base.Qplus (QArith_base.Qplus cursor subDur) subDur)
                       subDur)
    (QArith_base.Qplus cursor beat).
Proof.
  intros Hbeat.
  eapply QArith_base.Qeq_trans.
  { apply QArith_base.Qeq_sym. apply QArith_base.Qplus_assoc. }
  eapply QArith_base.Qeq_trans.
  { apply QArith_base.Qeq_sym. apply QArith_base.Qplus_assoc. }
  apply QArith_base.Qplus_comp; [apply QArith_base.Qeq_refl | exact Hbeat].
Qed.

(** C9.  A triplet group (a token built by [tripletGroup], of 8 units)
    is played as exactly three events, the first at the cursor and each of
    the others one [subDur] = (8/3) x [secondsPerUnit] after the one before,
    whatever the arithmetic of the numbers; and in exact arithmetic the
    cursor advances by 8 x [secondsPerUnit], as it does for a token of 8
    units that is not a triplet group. *)
Theorem triplet_three_events_one_beat_when_exact :
  (forall (number : JSNumber) (baseType : Token) (first : bool) (cursor : num),
      playToken (tripletGroup baseType) first cursor
      = ([(cursor, first);
          (num_add cursor
                   (num_mul (num_div (num_of_Z 8) (num_of_Z 3)) secondsPerUnit),
           false);
          (num_add (num_add cursor
                            (num_mul (num_div (num_of_Z 8) (num_of_Z 3))
                                     secondsPerUnit))
                   (num_mul (num_div (num_of_Z 8) (num_of_Z 3)) secondsPerUnit),
           false)],
         num_add
           (num_add (num_add cursor
                             (num_mul (num_div (num_of_Z 8) (num_of_Z 3))
                                      secondsPerUnit))
                    (num_mul (num_div (num_of_Z 8) (num_of_Z 3)) secondsPerUnit))
           (num_mul (num_div (num_of_Z 8) (num_of_Z 3)) secondsPerUnit)))
  /\ (forall (baseType : Token) (first : bool) (cursor : QArith_base.Q),
         QArith_base.Qeq
           (snd (@playToken Exact.Rationals (tripletGroup baseType) first cursor))
           (QArith_base.Qplus cursor
              (QArith_base.Qmult (QArith_base.inject_Z 8)
                                 (@secondsPerUnit Exact.Rationals))))
  /\ (forall (baseType : Token) (first : bool) (cursor : QArith_base.Q)
             (plainName : string) (plainDur : option string) (plainDots : option Z)
             (plainBase : option Token),
         QArith_base.Qeq
           (snd (@playToken Exact.Rationals (tripletGroup baseType) first cursor))
           (snd (@playToken Exact.Rationals
                            (mkToken plainName 8 plainDur plainDots false plainBase)
                            first cursor))).
Proof.
  assert (forall cursor : QArith_base.Q,
             QArith_base.Qeq
               (QArith_base.Qplus
                  (QArith_base.Qplus
                     (QArith_base.Qplus cursor
                        (QArith_base.Qmult
                           (QArith_base.Qdiv (QArith_base.inject_Z 8)
                                             (QArith_base.inject_Z 3))
                           (@secondsPerUnit Exact.Rationals)))
                     (QArith_base.Qmult
                        (QArith_base.Qdiv (QArith_base.inject_Z 8)
                                          (QArith_base.inject_Z 3))
                        (@secondsPerUnit Exact.Rationals)))
                  (QArith_base.Qmult
                     (QArith_base.Qdiv (QArith_base.inject_Z 8)
                                       (QArith_base.inject_Z 3))
                     (@secondsPerUnit Exact.Rationals)))
               (QArith_base.Qplus cursor
                  (QArith_base.Qmult (QArith_base.inject_Z 8)
                                     (@secondsPerUnit Exact.Rationals)))) as Hexact.
  { intros cursor. apply three_thirds_exact. vm_compute. reflexivity. }
  split; [|split].
  - intros number baseType first cursor. reflexivity.
  - intros baseType first cursor. exact (Hexact cursor).
  - intros baseType first cursor plainName plainDur plainDots plainBase.
    exact (Hexact cursor).
Qed.

(** In the doubles of the code the two advances differ: from a start at
    [0 + 0.1], the cursor after a triplet group is not the cursor after a
    crotchet. *)
Lemma triplet_advance_differs_in_doubles :
  PrimFloat.eqb
    (snd (@playToken Doubles.Binary64 (tripletGroup TYPES_quaver) true
                     (PrimFloat.add (Doubles.of_Z 0) Doubles.tenth)))
    (snd (@playToken Doubles.Binary64 TYPES_crotchet true
                     (PrimFloat.add (Doubles.of_Z 0) Doubles.tenth)))
  = false
  /\ snd (@playToken Doubles.Binary64 (tripletGroup TYPES_quaver) true
                     (PrimFloat.add (Doubles.of_Z 0) Doubles.tenth))
     <> snd (@playToken Doubles.Binary64 TYPES_crotchet true
                        (PrimFloat.add (Doubles.of_Z 0) Doubles.tenth)).
Proof.
  assert (PrimFloat.eqb
            (snd (@playToken Doubles.Binary64 (tripletGroup TYPES_quaver) true
                             (PrimFloat.add (Doubles.of_Z 0) Doubles.tenth)))
            (snd (@playToken Doubles.Binary64 TYPES_crotchet true
                             (PrimFloat.add (Doubles.of_Z 0) Doubles.tenth)))
          = false) as Hdiffer by (vm_compute; reflexivity).
  split; [exact Hdiffer|].
  intros Hsame. rewrite Hsame in Hdiffer. vm_compute in Hdiffer. discriminate.
Qed.
